(** * Gradient-descent optimizers of [openqml/_optimize.py]

    A shallow embedding of the six optimizer classes
    ([GradientDescentOptimizer], [MomentumOptimizer],
    [NesterovMomentumOptimizer], [AdagradOptimizer], [RMSPropOptimizer],
    [AdamOptimizer]) together with the part of the numeric array library
    they rely on: arrays are references to buffers in a store, arithmetic
    allocates a new buffer, [+=] writes in place, [reshape] returns a view.

    The scalar arithmetic is an interface ([Scalar]); the programs and most
    theorems are generic in it.  Facts that need the laws of arithmetic are
    proved for the instance of real numbers, and the examples are also run
    in binary64. *)

From Stdlib Require Import Floats.PrimFloat.
From Stdlib Require Uint63.
From Stdlib Require Floats.SpecFloat Floats.FloatOps.
From Stdlib Require Import ZArith Reals Lra Lia.
From stdpp Require Import base option list.

Set Warnings "-inexact-float".

Set Default Proof Using "Type".

(** ** Scalars *)

(** What the optimizers need from the number type of the array library.
    [of_int n] is the Python int [n] as a number of that type (the [1] of
    [1 - self.decay]); [of_decimal m e] is the value of the decimal literal
    [m]e[e] ([1e-8] is [of_decimal 1 (-8)], [0.9] is [of_decimal 9 (-1)]). *)
Class Scalar (F : Type) := {
  fadd : F -> F -> F;
  fsub : F -> F -> F;
  fmul : F -> F -> F;
  fdiv : F -> F -> F;
  fsqrt : F -> F;
  fpow : F -> Z -> F;
  of_int : Z -> F;
  of_decimal : Z -> Z -> F
}.

(** The real numbers: arithmetic without rounding. *)
#[export] Instance R_Scalar : Scalar R := {
  fadd := Rplus;
  fsub := Rminus;
  fmul := Rmult;
  fdiv := Rdiv;
  fsqrt := sqrt;
  fpow := powerRZ;
  of_int := IZR;
  of_decimal m e := (IZR m * powerRZ 10 e)%R
}.

(** Binary64, the [float] of Python and the [float64] of the array library,
    with the primitive operations of the kernel (IEEE 754, round to nearest
    even).  [float_of_Z] is exact up to [2^53] and [of_decimal] is the
    correctly rounded quotient of two such integers, which is the value of
    the literal for the literals of the source.  [float_pow b n] is the
    exact power rounded once, to nearest even: the value C's [pow] has
    wherever it rounds correctly, which is what Python's [b ** n] calls on
    a float and an int.  From a finite base Python raises where this
    function gives an infinity: [OverflowError] when the power is too
    large, [ZeroDivisionError] for zero to a negative power. *)
Definition float_of_Z (z : Z) : float :=
  if (z <? 0)%Z then PrimFloat.opp (PrimFloat.of_uint63 (Uint63.of_Z (- z)))
  else PrimFloat.of_uint63 (Uint63.of_Z z).

Definition float_pow (b : float) (n : Z) : float :=
  match n with
  | Z0 => 1%float
  | Zpos k =>
      match FloatOps.Prim2SF b with
      | SpecFloat.S754_finite s m e =>
          FloatOps.SF2Prim
            (SpecFloat.binary_round FloatOps.prec FloatOps.emax
               (s && Z.odd n) (Pos.pow m k) (e * n))
      | SpecFloat.S754_zero s =>
          FloatOps.SF2Prim (SpecFloat.S754_zero (s && Z.odd n))
      | SpecFloat.S754_infinity s =>
          FloatOps.SF2Prim (SpecFloat.S754_infinity (s && Z.odd n))
      | SpecFloat.S754_nan => PrimFloat.nan
      end
  | Zneg k =>
      match FloatOps.Prim2SF b with
      | SpecFloat.S754_finite s m e =>
          let '(mz, ez, lz) :=
            SpecFloat.SFdiv_core_binary FloatOps.prec FloatOps.emax
              1 0 (Zpos (Pos.pow m k)) (e * Zpos k) in
          FloatOps.SF2Prim
            (SpecFloat.binary_round_aux FloatOps.prec FloatOps.emax
               (s && Z.odd n) mz ez lz)
      | SpecFloat.S754_zero s =>
          FloatOps.SF2Prim (SpecFloat.S754_infinity (s && Z.odd n))
      | SpecFloat.S754_infinity s =>
          FloatOps.SF2Prim (SpecFloat.S754_zero (s && Z.odd n))
      | SpecFloat.S754_nan => PrimFloat.nan
      end
  end.

#[export] Instance binary64_Scalar : Scalar float := {
  fadd := PrimFloat.add;
  fsub := PrimFloat.sub;
  fmul := PrimFloat.mul;
  fdiv := PrimFloat.div;
  fsqrt := PrimFloat.sqrt;
  fpow := float_pow;
  of_int := float_of_Z;
  of_decimal m e :=
    if (e <? 0)%Z then PrimFloat.div (float_of_Z m) (float_of_Z (10 ^ (- e)))
    else float_of_Z (m * 10 ^ e)
}.

(** ** Exceptions *)

Inductive exn :=
| ValueError        (* shapes that do not broadcast, reshape of the wrong size *)
| AttributeError    (* a method the class does not have *)
| TypeError         (* arithmetic on None *)
| SystemError       (* a reference to a buffer that is not in the store *)
| UserError (code : nat).  (* raised by the caller's function or the engine *)

Inductive result (A : Type) :=
| Ok (a : A)
| Raise (e : exn).
Arguments Ok {A} a.
Arguments Raise {A} e.

Definition rbind {A B} (r : result A) (k : A -> result B) : result B :=
  match r with
  | Ok a => k a
  | Raise e => Raise e
  end.

(** ** Array values: a shape and the elements in row-major order *)

Section Values.
Context {F : Type} `{Scalar F}.

Record value := { vshape : list nat; vdata : list F }.

(** A Python float (or a 0-d array) as a value. *)
Definition scalar (f : F) : value := {| vshape := []; vdata := [f] |}.

Definition size_of (s : list nat) : nat := foldr Nat.mul 1 s.

(** The broadcasting rule on shapes read from the last axis: two axes are
    compatible when they are equal or one of them is 1; the shorter shape
    is padded on the left. *)
Fixpoint broadcast_rev (a b : list nat) : option (list nat) :=
  match a, b with
  | [], _ => Some b
  | _, [] => Some a
  | m :: a', n :: b' =>
      if m =? n then cons m <$> broadcast_rev a' b'
      else if m =? 1 then cons n <$> broadcast_rev a' b'
      else if n =? 1 then cons m <$> broadcast_rev a' b'
      else None
  end.

Definition broadcast_shape (a b : list nat) : option (list nat) :=
  reverse <$> broadcast_rev (reverse a) (reverse b).

(** [chunks k m d]: the first [m] consecutive blocks of [k] elements. *)
Fixpoint chunks (k m : nat) (d : list F) : list (list F) :=
  match m with
  | O => []
  | S m' => take k d :: chunks k m' (drop k d)
  end.

(** The elements of an array of shape [from] seen as an array of shape
    [to] ([to] is a shape [from] broadcasts to): a missing leading axis
    and an axis of length 1 are repeated. *)
Fixpoint broadcast_to (from to : list nat) (d : list F) : list F :=
  match to with
  | [] => d
  | n :: to' =>
      if length from <? length to
      then mjoin (replicate n (broadcast_to from to' d))
      else match from with
           | [] => d
           | m :: from' =>
               if m =? n
               then mjoin (broadcast_to from' to' <$> chunks (size_of from') m d)
               else mjoin (replicate n (broadcast_to from' to' d))
           end
  end.

(** An elementwise binary operation, with broadcasting. *)
Definition vbinop (op : F -> F -> F) (a b : value) : result value :=
  match broadcast_shape (vshape a) (vshape b) with
  | None => Raise ValueError
  | Some s =>
      Ok {| vshape := s;
            vdata := zip_with op (broadcast_to (vshape a) s (vdata a))
                                 (broadcast_to (vshape b) s (vdata b)) |}
  end.

Definition vmap (f : F -> F) (a : value) : value :=
  {| vshape := vshape a; vdata := f <$> vdata a |}.

Definition vadd := vbinop fadd.
Definition vsub := vbinop fsub.
Definition vmul := vbinop fmul.
Definition vdiv := vbinop fdiv.
Definition vsqrt := vmap fsqrt.

(** [a.reshape(s)]: the same elements under another shape of the same
    size. *)
Definition vreshape (a : value) (s : list nat) : result value :=
  if size_of (vshape a) =? size_of s
  then Ok {| vshape := s; vdata := vdata a |}
  else Raise ValueError.

(** [a += b].  On an array the sum is written into [a], so it must have
    the shape of [a].  A 0-d value is a NumPy scalar, which is immutable:
    there [a += b] is [a = a + b], whatever the shape of the sum. *)
Definition viadd (a b : value) : result value :=
  rbind (vadd a b) (fun r =>
    match vshape a with
    | [] => Ok r
    | _ => if decide (vshape r = vshape a) then Ok r else Raise ValueError
    end).

(** A value is well formed when it has as many elements as its shape
    says. *)
Definition wf_value (a : value) : Prop := length (vdata a) = size_of (vshape a).

End Values.
Arguments value F : clear implicits.

(** ** The store, array references and the optimizer object *)

(** An array object: the buffer that holds its elements and its shape.
    Two arrays with the same buffer share their elements (a view). *)
Record ndarray := { buf : nat; shape : list nat }.

(** The store maps a buffer to its elements. *)
Abbreviation store F := (list (list F)).

Section Objects.
Context {F : Type}.

(** What arithmetic is applied to: a Python float or an array. *)
Inductive operand :=
| Sc (f : F)
| Arr (a : ndarray).

(** The optimizer object: its class and its attributes.  An attribute
    that holds [None] in Python is [None] here. *)
Inductive optimizer :=
| GradientDescentOptimizer (stepsize : F)
| MomentumOptimizer (stepsize momentum : F) (accumulation : option ndarray)
| NesterovMomentumOptimizer (stepsize momentum : F) (accumulation : option ndarray)
| AdagradOptimizer (stepsize : F) (accumulation : option ndarray)
| RMSPropOptimizer (stepsize decay : F) (accumulation : option ndarray)
| AdamOptimizer (stepsize beta1 beta2 : F)
                (firstmoment secondmoment : option ndarray) (t : Z).

Record world := { heap : store F; self : optimizer }.

(** *** Attributes *)

Definition stepsize (o : optimizer) : F :=
  match o with
  | GradientDescentOptimizer s | MomentumOptimizer s _ _
  | NesterovMomentumOptimizer s _ _ | AdagradOptimizer s _
  | RMSPropOptimizer s _ _ | AdamOptimizer s _ _ _ _ _ => s
  end.

Definition momentum (o : optimizer) : option F :=
  match o with
  | MomentumOptimizer _ m _ | NesterovMomentumOptimizer _ m _ => Some m
  | _ => None
  end.

Definition decay (o : optimizer) : option F :=
  match o with
  | RMSPropOptimizer _ d _ => Some d
  | _ => None
  end.

Definition beta1 (o : optimizer) : option F :=
  match o with
  | AdamOptimizer _ b _ _ _ _ => Some b
  | _ => None
  end.

Definition beta2 (o : optimizer) : option F :=
  match o with
  | AdamOptimizer _ _ b _ _ _ => Some b
  | _ => None
  end.

Definition accumulation (o : optimizer) : option ndarray :=
  match o with
  | MomentumOptimizer _ _ a | NesterovMomentumOptimizer _ _ a
  | AdagradOptimizer _ a | RMSPropOptimizer _ _ a => a
  | _ => None
  end.

Definition firstmoment (o : optimizer) : option ndarray :=
  match o with
  | AdamOptimizer _ _ _ m _ _ => m
  | _ => None
  end.

Definition secondmoment (o : optimizer) : option ndarray :=
  match o with
  | AdamOptimizer _ _ _ _ v _ => v
  | _ => None
  end.

Definition t (o : optimizer) : Z :=
  match o with
  | AdamOptimizer _ _ _ _ _ n => n
  | _ => 0
  end.

(** Assignment to an attribute; the methods below assign only attributes
    their class has. *)
Definition with_accumulation (a : option ndarray) (o : optimizer) : optimizer :=
  match o with
  | MomentumOptimizer s m _ => MomentumOptimizer s m a
  | NesterovMomentumOptimizer s m _ => NesterovMomentumOptimizer s m a
  | AdagradOptimizer s _ => AdagradOptimizer s a
  | RMSPropOptimizer s d _ => RMSPropOptimizer s d a
  | _ => o
  end.

Definition with_firstmoment (a : option ndarray) (o : optimizer) : optimizer :=
  match o with
  | AdamOptimizer s b1 b2 _ v n => AdamOptimizer s b1 b2 a v n
  | _ => o
  end.

Definition with_secondmoment (a : option ndarray) (o : optimizer) : optimizer :=
  match o with
  | AdamOptimizer s b1 b2 m _ n => AdamOptimizer s b1 b2 m a n
  | _ => o
  end.

Definition with_t (n : Z) (o : optimizer) : optimizer :=
  match o with
  | AdamOptimizer s b1 b2 m v _ => AdamOptimizer s b1 b2 m v n
  | _ => o
  end.

(** *** Computations: a state and exception monad over the world.
    A raised exception keeps the changes made before it. *)
Definition M (A : Type) : Type := world -> result A * world.

Definition ret {A} (a : A) : M A := fun w => (Ok a, w).

Definition raise {A} (e : exn) : M A := fun w => (Raise e, w).

Definition bind {A B} (m : M A) (k : A -> M B) : M B :=
  fun w =>
    match m w with
    | (Ok a, w') => k a w'
    | (Raise e, w') => (Raise e, w')
    end.

Definition lift_result {A} (r : result A) : M A := fun w => (r, w).

Definition get_self : M optimizer := fun w => (Ok (self w), w).

Definition set_self (f : optimizer -> optimizer) : M unit :=
  fun w => (Ok tt, {| heap := heap w; self := f (self w) |}).

(** A call of a function of the caller or of the differentiation engine:
    it works on the store, not on the optimizer. *)
Definition call {A} (f : store F -> result A * store F) : M A :=
  fun w => let (r, h) := f (heap w) in (r, {| heap := h; self := self w |}).

(** An attribute used as an array: arithmetic on [None] is a
    [TypeError]. *)
Definition the_array (a : option ndarray) : M ndarray :=
  match a with
  | Some r => ret r
  | None => raise TypeError
  end.

End Objects.
Arguments operand F : clear implicits.
Arguments optimizer F : clear implicits.
Arguments world F : clear implicits.
Arguments M F A : clear implicits.

Declare Scope prog_scope.
Delimit Scope prog_scope with prog.
Notation "x <- m ;; k" := (bind m (fun x => k))
  (at level 100, m at next level, right associativity) : prog_scope.
Notation "m ;; k" := (bind m (fun _ => k))
  (at level 100, right associativity) : prog_scope.

(** ** The array library on the store *)

Section Numpy.
Context {F : Type} `{Scalar F}.
Local Open Scope prog_scope.

(** The value an operand denotes in a store. *)
Definition read (h : store F) (o : operand F) : result (value F) :=
  match o with
  | Sc f => Ok (scalar f)
  | Arr a =>
      match h !! buf a with
      | Some d => Ok {| vshape := shape a; vdata := d |}
      | None => Raise SystemError
      end
  end.

Definition np_read (o : operand F) : M F (value F) :=
  fun w => (read (heap w) o, w).

(** A new array: its buffer is the next free one. *)
Definition alloc (v : value F) : M F ndarray :=
  fun w => (Ok {| buf := length (heap w); shape := vshape v |},
            {| heap := heap w ++ [vdata v]; self := self w |}).

(** Overwrite the elements of a buffer. *)
Definition write (l : nat) (d : list F) : M F unit :=
  fun w => (Ok tt, {| heap := <[l := d]> (heap w); self := self w |}).

(** [a op b]: the result is a new array. *)
Definition np_binop (op : F -> F -> F) (a b : operand F) : M F ndarray :=
  va <- np_read a;;
  vb <- np_read b;;
  v <- lift_result (vbinop op va vb);;
  alloc v.

(** [np.sqrt(a)]: a new array. *)
Definition np_sqrt (a : ndarray) : M F ndarray :=
  va <- np_read (Arr a);;
  alloc (vsqrt va).

(** [a += b]: on an array the sum is written into the buffer of [a], and
    [a] itself is the result; on a 0-d value (a NumPy scalar) the result is
    a new one. *)
Definition np_iadd (a : ndarray) (b : operand F) : M F ndarray :=
  va <- np_read (Arr a);;
  vb <- np_read b;;
  v <- lift_result (viadd va vb);;
  match shape a with
  | [] => alloc v
  | _ => write (buf a) (vdata v);; ret a
  end.

(** [g.reshape(s)]: a view on the buffer of [g]. *)
Definition np_reshape (g : ndarray) (s : list nat) : M F ndarray :=
  if size_of (shape g) =? size_of s
  then ret {| buf := buf g; shape := s |}
  else raise ValueError.

End Numpy.

Notation "a ⊕ b" := (np_binop fadd a b) (at level 50, left associativity) : prog_scope.
Notation "a ⊖ b" := (np_binop fsub a b) (at level 50, left associativity) : prog_scope.
Notation "a ⊙ b" := (np_binop fmul a b) (at level 40, left associativity) : prog_scope.
Notation "a ⊘ b" := (np_binop fdiv a b) (at level 40, left associativity) : prog_scope.

(** ** The optimizers *)

Section Optimizers.
Context {F : Type} `{Scalar F}.
Local Open Scope prog_scope.

(** A function that computes a gradient: the caller's [grad_fn], or what
    the differentiation engine makes of an objective.  It may allocate,
    write to the store and raise. *)
Definition grad_function := ndarray -> store F -> result ndarray * store F.

(** The objective functions the differentiation engine accepts, and the
    engine: [autograd_grad f x] is [autograd.grad(f)(x)]. *)
Context {objective : Type}.
Variable autograd_grad : objective -> grad_function.

(** The literals of the source. *)
Definition one : F := of_int 1.
Definition eps : F := of_decimal 1 (-8).

(** *** [__init__]: default values and construction *)
Definition default_stepsize : F := of_decimal 1 (-2).
Definition default_momentum : F := of_decimal 9 (-1).
Definition default_decay : F := of_decimal 9 (-1).
Definition default_beta1 : F := of_decimal 9 (-1).
Definition default_beta2 : F := of_decimal 99 (-2).

Definition GradientDescentOptimizer_init (stepsize : F) : optimizer F :=
  GradientDescentOptimizer stepsize.
Definition MomentumOptimizer_init (stepsize momentum : F) : optimizer F :=
  MomentumOptimizer stepsize momentum None.
Definition NesterovMomentumOptimizer_init (stepsize momentum : F) : optimizer F :=
  NesterovMomentumOptimizer stepsize momentum None.
Definition AdagradOptimizer_init (stepsize : F) : optimizer F :=
  AdagradOptimizer stepsize None.
Definition RMSPropOptimizer_init (stepsize decay : F) : optimizer F :=
  RMSPropOptimizer stepsize decay None.
Definition AdamOptimizer_init (stepsize beta1 beta2 : F) : optimizer F :=
  AdamOptimizer stepsize beta1 beta2 None None 0.

(** *** [GradientDescentOptimizer] *)

Definition GradientDescentOptimizer_compute_grad
    (objective_fn : objective) (x : ndarray) (grad_fn : option grad_function)
    : M F ndarray :=
  match grad_fn with
  | Some grad_fn => call (grad_fn x)
  | None => call (autograd_grad objective_fn x)
  end.

Definition GradientDescentOptimizer_apply_grad
    (stepsize : F) (grad x : ndarray) : M F ndarray :=
  d <- Sc stepsize ⊙ Arr grad;;
  Arr x ⊖ Arr d.

(** *** [MomentumOptimizer] *)

Definition MomentumOptimizer_apply_grad
    (stepsize momentum : F) (grad x : ndarray) : M F ndarray :=
  self <- get_self;;
  (match accumulation self with
   | None =>
       a <- Sc stepsize ⊙ Arr grad;;
       set_self (with_accumulation (Some a))
   | Some acc =>
       m <- Sc momentum ⊙ Arr acc;;
       d <- Sc stepsize ⊙ Arr grad;;
       a <- Arr m ⊕ Arr d;;
       set_self (with_accumulation (Some a))
   end);;
  self <- get_self;;
  acc <- the_array (accumulation self);;
  Arr x ⊖ Arr acc.

Definition MomentumOptimizer_reset : M F unit :=
  set_self (with_accumulation None).

(** *** [NesterovMomentumOptimizer] *)

Definition NesterovMomentumOptimizer_compute_grad
    (momentum : F) (objective_fn : objective) (x : ndarray)
    (grad_fn : option grad_function) : M F ndarray :=
  self <- get_self;;
  shifted_x <- match accumulation self with
               | None => ret x
               | Some acc =>
                   m <- Sc momentum ⊙ Arr acc;;
                   Arr x ⊖ Arr m
               end;;
  match grad_fn with
  | Some grad_fn => call (grad_fn shifted_x)
  | None => call (autograd_grad objective_fn shifted_x)
  end.

(** *** [AdagradOptimizer] *)

Definition AdagradOptimizer_apply_grad
    (stepsize : F) (grad x : ndarray) : M F ndarray :=
  self <- get_self;;
  (match accumulation self with
   | None =>
       a <- Arr grad ⊙ Arr grad;;
       set_self (with_accumulation (Some a))
   | Some acc =>
       gg <- Arr grad ⊙ Arr grad;;
       a <- np_iadd acc (Arr gg);;
       set_self (with_accumulation (Some a))
   end);;
  self <- get_self;;
  acc <- the_array (accumulation self);;
  s <- Arr acc ⊕ Sc eps;;
  r <- np_sqrt s;;
  q <- Sc stepsize ⊘ Arr r;;
  d <- Arr q ⊙ Arr grad;;
  Arr x ⊖ Arr d.

Definition AdagradOptimizer_reset : M F unit :=
  set_self (with_accumulation None).

(** *** [RMSPropOptimizer] *)

Definition RMSPropOptimizer_apply_grad
    (stepsize decay : F) (grad x : ndarray) : M F ndarray :=
  self <- get_self;;
  (match accumulation self with
   | None =>
       gg <- Arr grad ⊙ Arr grad;;
       a <- Sc (fsub one decay) ⊙ Arr gg;;
       set_self (with_accumulation (Some a))
   | Some acc =>
       m <- Sc decay ⊙ Arr acc;;
       gg <- Arr grad ⊙ Arr grad;;
       n <- Sc (fsub one decay) ⊙ Arr gg;;
       a <- Arr m ⊕ Arr n;;
       set_self (with_accumulation (Some a))
   end);;
  self <- get_self;;
  acc <- the_array (accumulation self);;
  s <- Arr acc ⊕ Sc eps;;
  r <- np_sqrt s;;
  q <- Sc stepsize ⊘ Arr r;;
  d <- Arr q ⊙ Arr grad;;
  Arr x ⊖ Arr d.

(** *** [AdamOptimizer] *)

Definition adapted_stepsize (stepsize beta1 beta2 : F) (t : Z) : F :=
  fdiv (fmul stepsize (fsqrt (fsub one (fpow beta2 t))))
       (fsub one (fpow beta1 t)).

Definition AdamOptimizer_apply_grad
    (stepsize beta1 beta2 : F) (grad x : ndarray) : M F ndarray :=
  self <- get_self;;
  set_self (with_t (t self + 1));;
  (* Update first moment *)
  self <- get_self;;
  (match firstmoment self with
   | None => set_self (with_firstmoment (Some grad))
   | Some fm =>
       m <- Sc beta1 ⊙ Arr fm;;
       n <- Sc (fsub one beta1) ⊙ Arr grad;;
       a <- Arr m ⊕ Arr n;;
       set_self (with_firstmoment (Some a))
   end);;
  (* Update second moment *)
  self <- get_self;;
  (match secondmoment self with
   | None =>
       gg <- Arr grad ⊙ Arr grad;;
       set_self (with_secondmoment (Some gg))
   | Some sm =>
       m <- Sc beta2 ⊙ Arr sm;;
       gg <- Arr grad ⊙ Arr grad;;
       n <- Sc (fsub one beta2) ⊙ Arr gg;;
       a <- Arr m ⊕ Arr n;;
       set_self (with_secondmoment (Some a))
   end);;
  (* Update step size (instead of correcting for bias) *)
  self <- get_self;;
  let adapted := adapted_stepsize stepsize beta1 beta2 (t self) in
  fm <- the_array (firstmoment self);;
  num <- Sc adapted ⊙ Arr fm;;
  sm <- the_array (secondmoment self);;
  r <- np_sqrt sm;;
  den <- Arr r ⊕ Sc eps;;
  d <- Arr num ⊘ Arr den;;
  Arr x ⊖ Arr d.

Definition AdamOptimizer_reset : M F unit :=
  set_self (with_firstmoment None);;
  set_self (with_secondmoment None);;
  set_self (with_t 0).

(** *** Method resolution: the method a call on [self] runs *)

Definition compute_grad (objective_fn : objective) (x : ndarray)
    (grad_fn : option grad_function) : M F ndarray :=
  self <- get_self;;
  match self with
  | NesterovMomentumOptimizer _ momentum _ =>
      NesterovMomentumOptimizer_compute_grad momentum objective_fn x grad_fn
  | _ => GradientDescentOptimizer_compute_grad objective_fn x grad_fn
  end.

Definition apply_grad (grad x : ndarray) : M F ndarray :=
  self <- get_self;;
  match self with
  | GradientDescentOptimizer stepsize =>
      GradientDescentOptimizer_apply_grad stepsize grad x
  | MomentumOptimizer stepsize momentum _
  | NesterovMomentumOptimizer stepsize momentum _ =>
      MomentumOptimizer_apply_grad stepsize momentum grad x
  | AdagradOptimizer stepsize _ =>
      AdagradOptimizer_apply_grad stepsize grad x
  | RMSPropOptimizer stepsize decay _ =>
      RMSPropOptimizer_apply_grad stepsize decay grad x
  | AdamOptimizer stepsize beta1 beta2 _ _ _ =>
      AdamOptimizer_apply_grad stepsize beta1 beta2 grad x
  end.

Definition reset : M F unit :=
  self <- get_self;;
  match self with
  | GradientDescentOptimizer _ => raise AttributeError
  | MomentumOptimizer _ _ _ | NesterovMomentumOptimizer _ _ _ =>
      MomentumOptimizer_reset
  | AdagradOptimizer _ _ | RMSPropOptimizer _ _ _ => AdagradOptimizer_reset
  | AdamOptimizer _ _ _ _ _ _ => AdamOptimizer_reset
  end.

(** *** [step], inherited by every class *)

Definition step (objective_fn : objective) (x : ndarray)
    (grad_fn : option grad_function) : M F ndarray :=
  let x_shape := shape x in
  g <- compute_grad objective_fn x grad_fn;;
  g <- (if 1 <? length x_shape then np_reshape g x_shape else ret g);;
  apply_grad g x.

End Optimizers.
Arguments grad_function F : clear implicits.

(** ** The update rules on array values

    The rules as the specification words them, on values rather than on
    the store.  The theorems relate the programs above to them. *)

#[export] Instance result_bind : MBind result := fun A B k r => rbind r k.

Module Spec.
Section Spec.
Context {F : Type} `{Scalar F}.

(** [x_new = x - stepsize * g] *)
Definition gd_update (stepsize : F) (x g : value F) : result (value F) :=
  d ← vmul (scalar stepsize) g; vsub x d.

(** first call: [stepsize * g]; then [momentum * accumulation + stepsize * g] *)
Definition momentum_accumulation (stepsize momentum : F)
    (accumulation : option (value F)) (g : value F) : result (value F) :=
  match accumulation with
  | None => vmul (scalar stepsize) g
  | Some a =>
      m ← vmul (scalar momentum) a;
      d ← vmul (scalar stepsize) g;
      vadd m d
  end.

(** the look-ahead point [x - momentum * accumulation], or [x] *)
Definition lookahead (momentum : F) (accumulation : option (value F))
    (x : value F) : result (value F) :=
  match accumulation with
  | None => Ok x
  | Some a => m ← vmul (scalar momentum) a; vsub x m
  end.

(** first call: [g * g]; then [accumulation += g * g] *)
Definition adagrad_accumulation (accumulation : option (value F))
    (g : value F) : result (value F) :=
  gg ← vmul g g;
  match accumulation with
  | None => Ok gg
  | Some a => viadd a gg
  end.

(** first call: [(1 - decay) * (g * g)]; then
    [decay * accumulation + (1 - decay) * (g * g)] *)
Definition rmsprop_accumulation (decay : F)
    (accumulation : option (value F)) (g : value F) : result (value F) :=
  match accumulation with
  | None =>
      gg ← vmul g g;
      vmul (scalar (fsub one decay)) gg
  | Some a =>
      m ← vmul (scalar decay) a;
      gg ← vmul g g;
      n ← vmul (scalar (fsub one decay)) gg;
      vadd m n
  end.

(** [x_new = x - (stepsize / sqrt(accumulation + eps)) * g] *)
Definition adaptive_update (stepsize : F) (accumulation x g : value F)
    : result (value F) :=
  s ← vadd accumulation (scalar eps);
  q ← vdiv (scalar stepsize) (vsqrt s);
  d ← vmul q g;
  vsub x d.

(** [g] if unset, else [beta1 * firstmoment + (1 - beta1) * g] *)
Definition adam_firstmoment (beta1 : F) (firstmoment : option (value F))
    (g : value F) : result (value F) :=
  match firstmoment with
  | None => Ok g
  | Some fm =>
      m ← vmul (scalar beta1) fm;
      n ← vmul (scalar (fsub one beta1)) g;
      vadd m n
  end.

(** [g * g] if unset, else [beta2 * secondmoment + (1 - beta2) * (g * g)] *)
Definition adam_secondmoment (beta2 : F) (secondmoment : option (value F))
    (g : value F) : result (value F) :=
  match secondmoment with
  | None => vmul g g
  | Some sm =>
      m ← vmul (scalar beta2) sm;
      gg ← vmul g g;
      n ← vmul (scalar (fsub one beta2)) gg;
      vadd m n
  end.

(** [x_new = x - adapted_stepsize * firstmoment / (sqrt(secondmoment) + eps)] *)
Definition adam_update (adapted : F) (firstmoment secondmoment x : value F)
    : result (value F) :=
  num ← vmul (scalar adapted) firstmoment;
  den ← vadd (vsqrt secondmoment) (scalar eps);
  d ← vdiv num den;
  vsub x d.

(** The elementwise sum of the squares of a list of gradients. *)
Fixpoint sum_squares (acc : value F) (gs : list (value F)) : result (value F) :=
  match gs with
  | [] => Ok acc
  | g :: gs => gg ← vmul g g; a ← vadd acc gg; sum_squares a gs
  end.

End Spec.
End Spec.

(** * Observations of a run *)

Section Observations.
Context {F : Type} `{Scalar F}.

(** The value of the array a call returned, in the store it left. *)
Definition final_value (p : result ndarray * world F) : result (value F) :=
  match p with
  | (Ok r, w) => read (heap w) (Arr r)
  | (Raise e, _) => Raise e
  end.

(** An attribute is unset, or it is an array of the store with a value. *)
Definition holds (h : store F) (a : option ndarray) (v : option (value F)) : Prop :=
  match a, v with
  | None, None => True
  | Some r, Some v => read h (Arr r) = Ok v
  | _, _ => False
  end.

(** A computation leaves the elements of buffer [l] as they are. *)
Definition preserves {A} (l : nat) (m : M F A) : Prop :=
  forall w d, heap w !! l = Some d -> heap (m w).2 !! l = Some d.

(** The same for a function of the caller or of the engine. *)
Definition fn_preserves (l : nat) (f : grad_function F) : Prop :=
  forall y h d, h !! l = Some d -> (f y h).2 !! l = Some d.

(** An array a computation returns is not in buffer [l]. *)
Definition returns_off {A} (l : nat) (proj : A -> nat) (m : M F A) : Prop :=
  forall w d r, heap w !! l = Some d -> (m w).1 = Ok r -> proj r <> l.

End Observations.


Section ValueDefs.
Context {F : Type} `{Scalar F}.

(** The array of shape [s] whose elements are all [c]. *)
Definition full (s : list nat) (c : F) : value F :=
  {| vshape := s; vdata := replicate (size_of s) c |}.

End ValueDefs.

Section StepDefs.
Context {F : Type} `{Scalar F}.
Context {objective : Type}.
Variable autograd_grad : objective -> grad_function F.
Local Open Scope prog_scope.

(** The function that computes the gradient in a call of [step]: the
    caller's [grad_fn] when there is one, else the engine on the objective. *)
Definition the_grad (objective_fn : objective) (grad_fn : option (grad_function F))
    : grad_function F :=
  match grad_fn with
  | Some grad_fn => grad_fn
  | None => autograd_grad objective_fn
  end.

(** The first half of [step]: the gradient as [apply_grad] receives it. *)
Definition gradient (objective_fn : objective) (x : ndarray)
    (grad_fn : option (grad_function F)) : M F ndarray :=
  g <- compute_grad autograd_grad objective_fn x grad_fn;;
  if 1 <? length (shape x) then np_reshape g (shape x) else ret g.

End StepDefs.

Section ClaimDefs.
Context {F : Type} `{Scalar F}.

(** A newly constructed optimizer of the class of [o], with the
    hyperparameters of [o]. *)
Definition just_constructed (o : optimizer F) : optimizer F :=
  match o with
  | GradientDescentOptimizer s => GradientDescentOptimizer_init s
  | MomentumOptimizer s m _ => MomentumOptimizer_init s m
  | NesterovMomentumOptimizer s m _ => NesterovMomentumOptimizer_init s m
  | AdagradOptimizer s _ => AdagradOptimizer_init s
  | RMSPropOptimizer s d _ => RMSPropOptimizer_init s d
  | AdamOptimizer s b1 b2 _ _ _ => AdamOptimizer_init s b1 b2
  end.

(** The classes with accumulated state (the ones that have [reset]). *)
Definition has_memory (o : optimizer F) : Prop :=
  match o with
  | GradientDescentOptimizer _ => False
  | _ => True
  end.

End ClaimDefs.

Section Runs.
Context {F : Type} `{Scalar F}.
Context {objective : Type}.
Variable autograd_grad : objective -> grad_function F.

(** [calls w gs w']: from [w], calls of [step] that returned, with
    anything the caller does in between, lead to [w']; [gs] are the
    gradients the calls have seen, in order.  The caller, and the function
    computing the gradient, leave the array of [self.accumulation] alone,
    and it is neither [x] nor the gradient. *)
Inductive calls : world F -> list (value F) -> world F -> Prop :=
| calls_none w : calls w [] w
| calls_step w gs w1 f x gf g w2 vg vx r w3 :
    calls w gs w1 ->
    gradient autograd_grad f x gf w1 = (Ok g, w2) ->
    read (heap w2) (Arr g) = Ok vg ->
    read (heap w2) (Arr x) = Ok vx ->
    (forall a, accumulation (self w1) = Some a ->
       heap w2 !! buf a = heap w1 !! buf a /\ buf a <> buf g /\ buf a <> buf x) ->
    step autograd_grad f x gf w1 = (Ok r, w3) ->
    calls w (gs ++ [vg]) w3
| calls_caller w gs w1 w2 :
    calls w gs w1 ->
    self w2 = self w1 ->
    (forall a, accumulation (self w1) = Some a ->
       heap w2 !! buf a = heap w1 !! buf a) ->
    calls w gs w2.

(** The sum of the squares of the gradients of a list that is not empty. *)
Definition sum_of_squares (gs : list (value F)) : option (result (value F)) :=
  match gs with
  | [] => None
  | g :: gs => Some (gg ← vmul g g; Spec.sum_squares gg gs)
  end.

End Runs.

(** ** A differentiation engine and stores to run the programs on *)

Module Example.

(** The objectives this engine knows: [x ↦ sum(x * x)], a constant, and a
    function that is not differentiable. *)
Inductive objective := Square | Constant | Kink.

Section Engine.
Context {F : Type} {SF : Scalar F}.

(** The gradient of [Square], [2 * x], as a new array. *)
Definition grad_square : grad_function F :=
  fun y h =>
    match read h (Arr y) with
    | Ok v =>
        match vmul (scalar (of_int 2)) v with
        | Ok g => (Ok {| buf := length h; shape := vshape g |}, h ++ [vdata g])
        | Raise e => (Raise e, h)
        end
    | Raise e => (Raise e, h)
    end.

(** The gradient of [Constant]: zeros of the shape of the argument. *)
Definition grad_constant : grad_function F :=
  fun y h =>
    match read h (Arr y) with
    | Ok v => (Ok {| buf := length h; shape := vshape v |},
               h ++ [vdata (full (vshape v) (of_int 0))])
    | Raise e => (Raise e, h)
    end.

Definition grad_kink : grad_function F :=
  fun y h => (Raise (UserError 0), h).

Definition autograd (f : objective) : grad_function F :=
  match f with
  | Square => grad_square
  | Constant => grad_constant
  | Kink => grad_kink
  end.

(** An engine that returns the gradient flattened to one dimension. *)
Definition autograd_flat (f : objective) : grad_function F :=
  fun y h =>
    match autograd f y h with
    | (Ok g, h') => (Ok {| buf := buf g; shape := [size_of (shape g)] |}, h')
    | (Raise e, h') => (Raise e, h')
    end.

End Engine.

(** The scalar [x = 1.0] in buffer 0, over the reals and in binary64. *)
Definition x0 : ndarray := {| buf := 0; shape := [] |}.
Definition h0 : store R := [[1%R]].
Definition h0_binary64 : store float := [[1%float]].

(** A 2 x 2 array in buffer 0. *)
Definition x22 : ndarray := {| buf := 0; shape := [2; 2] |}.
Definition h22 : store R := [[1%R; 2%R; 3%R; 4%R]].

End Example.

(** ** More observations *)

Section MoreDefs.
Context {F : Type} `{Scalar F}.

(** The accumulated state is set: the optimizer has made a step since it
    was constructed or reset.  (A [GradientDescentOptimizer] has none.) *)
Definition active (o : optimizer F) : Prop :=
  match o with
  | GradientDescentOptimizer _ => True
  | AdamOptimizer _ _ _ fm sm _ => is_Some fm /\ is_Some sm
  | _ => is_Some (accumulation o)
  end.

(** A computation changes neither the class nor the hyperparameters of
    the optimizer. *)
Definition keeps_class {A} (m : M F A) : Prop :=
  forall w, just_constructed (self (m w).2) = just_constructed (self w).

(** An attribute is unset, or it is an array of the store of shape [s]. *)
Definition shaped (h : store F) (s : list nat) (a : option ndarray) : Prop :=
  match a with
  | None => True
  | Some r => shape r = s /\ buf r < length h
  end.

(** The arrays a computation has allocated, in the order of allocation:
    the buffers of the store [w'] it left that are not in the store [h] it
    started from. *)
Definition allocated (h : store F) (w' : world F) : list (list F) :=
  drop (length h) (heap w').

End MoreDefs.

Section MoreExamples.
Context {F : Type} `{Scalar F}.

(** A [grad_fn] of a caller that returns a new array of three ones,
    whatever the shape of its argument. *)
Definition grad_of_three : grad_function F :=
  fun y h => (Ok {| buf := length h; shape := [3] |},
              h ++ [[of_int 1; of_int 1; of_int 1]]).

End MoreExamples.

(** ** What a caller does with an optimizer *)

Section Sessions.
Context {F : Type} `{Scalar F}.
Context {objective : Type}.
Variable autograd_grad : objective -> grad_function F.

(** The caller calls [step], and catches the exception when it raises;
    calls [reset]; or does anything to the arrays of the store, leaving the
    attributes of the optimizer alone. *)
Inductive action :=
| CallStep (objective_fn : objective) (x : ndarray)
    (grad_fn : option (grad_function F))
| CallReset
| ChangeArrays (h : store F).

Definition act (a : action) (w : world F) : world F :=
  match a with
  | CallStep objective_fn x grad_fn => (step autograd_grad objective_fn x grad_fn w).2
  | CallReset => (reset w).2
  | ChangeArrays h => {| heap := h; self := self w |}
  end.

Definition session (l : list action) (w : world F) : world F :=
  foldl (fun w a => act a w) w l.

(** Starting from [n], the number of calls of [step] since the last
    [reset] that got as far as [apply_grad]: the gradient was computed and,
    where [step] reshapes it, reshaped. *)
Fixpoint updates (l : list action) (w : world F) (n : Z) : Z :=
  match l with
  | [] => n
  | a :: l =>
      updates l (act a w)
        match a with
        | CallStep objective_fn x grad_fn =>
            match (gradient autograd_grad objective_fn x grad_fn w).1 with
            | Ok _ => (n + 1)%Z
            | Raise _ => n
            end
        | CallReset => 0%Z
        | ChangeArrays _ => n
        end
  end.

End Sessions.
Arguments action F objective : clear implicits.

(** * Reasoning about the programs *)

(** ** The store under allocation and writes *)

Section Store.
Context {F : Type} `{Scalar F}.

Lemma read_alloc_old (h : store F) o d v :
  read h o = Ok v -> read (h ++ [d]) o = Ok v.
Proof.
  destruct o as [f|a]; [done|]. unfold read.
  destruct (h !! buf a) eqn:E; [|done].
  intros [= <-]. by rewrite (lookup_app_l_Some _ _ _ _ E).
Qed.

Lemma read_alloc_new (h : store F) v :
  read (h ++ [vdata v]) (Arr {| buf := length h; shape := vshape v |}) = Ok v.
Proof.
  unfold read, buf. rewrite lookup_app_r; [|lia]. rewrite Nat.sub_diag.
  by destruct v.
Qed.

Lemma read_live (h : store F) a v : read h (Arr a) = Ok v -> buf a < length h.
Proof.
  unfold read. destruct (h !! buf a) eqn:E; [|done]. intros _.
  by eapply lookup_lt_Some.
Qed.

Lemma read_shape (h : store F) a v : read h (Arr a) = Ok v -> vshape v = shape a.
Proof. unfold read. destruct (h !! buf a); [|done]. by intros [= <-]. Qed.

Lemma read_write_other (h : store F) l o v d :
  read h o = Ok v -> (forall a, o = Arr a -> buf a <> l) ->
  read (<[l := d]> h) o = Ok v.
Proof.
  destruct o as [f|a]; [done|]. intros Hr Hne. unfold read in *.
  rewrite list_lookup_insert_ne; [done|]. intros ->. by eapply Hne.
Qed.

Lemma viadd_shape (a b v : value F) :
  vshape a <> [] -> viadd a b = Ok v -> vshape v = vshape a.
Proof.
  unfold viadd, rbind. intros Hs. destruct (vadd a b) as [r|]; [|done].
  destruct (vshape a); [done|].
  destruct (decide (vshape r = _)); [|done]. by intros [= <-].
Qed.

Lemma viadd_vadd (a b v : value F) : viadd a b = Ok v -> vadd a b = Ok v.
Proof.
  unfold viadd, rbind. destruct (vadd a b) as [r|]; [|done].
  destruct (vshape a); [done|].
  by destruct (decide (vshape r = _)).
Qed.

(** After [a += b] on an array, [a] holds the sum. *)
Lemma read_iadd (h : store F) a va vb v :
  read h (Arr a) = Ok va -> viadd va vb = Ok v -> shape a <> [] ->
  read (<[buf a := vdata v]> h) (Arr a) = Ok v.
Proof.
  intros Hr Hv Hs. unfold read.
  rewrite list_lookup_insert_eq; [|by eapply read_live].
  rewrite <- (read_shape _ _ _ Hr) in *. rewrite <- (viadd_shape _ _ _ Hs Hv).
  by destruct v.
Qed.

Lemma np_binop_eq op a b (w : world F) :
  np_binop op a b w =
    match read (heap w) a with
    | Ok va =>
        match read (heap w) b with
        | Ok vb =>
            match vbinop op va vb with
            | Ok v => (Ok {| buf := length (heap w); shape := vshape v |},
                       {| heap := heap w ++ [vdata v]; self := self w |})
            | Raise e => (Raise e, w)
            end
        | Raise e => (Raise e, w)
        end
    | Raise e => (Raise e, w)
    end.
Proof.
  unfold np_binop, bind, np_read, lift_result, alloc.
  destruct (read (heap w) a); [|done].
  destruct (read (heap w) b); [|done].
  by destruct (vbinop op _ _).
Qed.

Lemma np_sqrt_eq a (w : world F) :
  np_sqrt a w =
    match read (heap w) (Arr a) with
    | Ok va => (Ok {| buf := length (heap w); shape := vshape (vsqrt va) |},
                {| heap := heap w ++ [vdata (vsqrt va)]; self := self w |})
    | Raise e => (Raise e, w)
    end.
Proof.
  unfold np_sqrt, bind, np_read, alloc. by destruct (read (heap w) (Arr a)).
Qed.

Lemma np_iadd_eq a b (w : world F) :
  np_iadd a b w =
    match read (heap w) (Arr a) with
    | Ok va =>
        match read (heap w) b with
        | Ok vb =>
            match viadd va vb with
            | Ok v =>
                match shape a with
                | [] => (Ok {| buf := length (heap w); shape := vshape v |},
                         {| heap := heap w ++ [vdata v]; self := self w |})
                | _ => (Ok a, {| heap := <[buf a := vdata v]> (heap w);
                                 self := self w |})
                end
            | Raise e => (Raise e, w)
            end
        | Raise e => (Raise e, w)
        end
    | Raise e => (Raise e, w)
    end.
Proof.
  unfold np_iadd, bind, np_read, lift_result, write, ret, alloc.
  destruct (read (heap w) (Arr a)); [|done].
  destruct (read (heap w) b); [|done].
  destruct (viadd _ _); [|done]. by destruct (shape a).
Qed.

End Store.

(** ** Running a program step by step *)

(** The value of an operand in a store built by allocations and writes. *)
Ltac solve_read :=
  first
    [ eassumption
    | reflexivity
    | apply read_alloc_new
    | apply read_alloc_old; solve_read
    | eapply read_iadd; [solve_read | eassumption | congruence]
    | apply read_write_other; [solve_read | intros ? [= <-]; congruence] ].

Ltac exec_step :=
  first
    [ progress unfold bind, ret, raise, lift_result, get_self, set_self,
        the_array, mbind, result_bind, rbind
    | progress cbn [heap self fst snd accumulation firstmoment secondmoment t
                    with_accumulation with_firstmoment with_secondmoment with_t
                    final_value holds]
    | rewrite np_binop_eq
    | rewrite np_sqrt_eq
    | rewrite np_iadd_eq
    | match goal with
      | |- context [read ?h ?o] =>
          let E := fresh in
          eassert (E : read h o = Ok _) by solve_read; rewrite E; clear E
      end
    | match goal with
      | E : vbinop ?op ?a ?b = _ |- context [vbinop ?op ?a ?b] => rewrite E
      | |- context [match vbinop ?op ?a ?b with _ => _ end] =>
          destruct (vbinop op a b) eqn:?
      | |- context [match viadd ?a ?b with _ => _ end] =>
          destruct (viadd a b) eqn:?
      | |- context [match shape ?a with _ => _ end] =>
          destruct (shape a) eqn:?
      end ].

Ltac exec := repeat exec_step.

(** ** What one call of [apply_grad] does, class by class *)

Section ApplyGrad.
Context {F : Type} `{Scalar F}.

Lemma GradientDescentOptimizer_apply_grad_spec s g x (w : world F) vg vx :
  self w = GradientDescentOptimizer s ->
  read (heap w) (Arr g) = Ok vg ->
  read (heap w) (Arr x) = Ok vx ->
  final_value (apply_grad g x w) = Spec.gd_update s vx vg /\
  self (apply_grad g x w).2 = self w.
Proof.
  intros Hcls Hg Hx. destruct w as [h o]. cbn [heap self] in *. subst o.
  unfold apply_grad, GradientDescentOptimizer_apply_grad, Spec.gd_update, vmul, vsub.
  exec; done.
Qed.

Lemma MomentumOptimizer_apply_grad_spec s m acc g x (w : world F) vacc vg vx :
  self w = MomentumOptimizer s m acc \/ self w = NesterovMomentumOptimizer s m acc ->
  holds (heap w) acc vacc ->
  read (heap w) (Arr g) = Ok vg ->
  read (heap w) (Arr x) = Ok vx ->
  match Spec.momentum_accumulation s m vacc vg with
  | Ok v =>
      (exists a, self (apply_grad g x w).2 = with_accumulation (Some a) (self w) /\
                 read (heap (apply_grad g x w).2) (Arr a) = Ok v) /\
      final_value (apply_grad g x w) = vsub vx v
  | Raise e => (apply_grad g x w).1 = Raise e /\ self (apply_grad g x w).2 = self w
  end.
Proof.
  intros Hcls Hh Hg Hx. destruct w as [h o]. cbn [heap self] in *.
  unfold apply_grad, MomentumOptimizer_apply_grad, Spec.momentum_accumulation,
    vmul, vadd, vsub.
  destruct acc as [a|], vacc as [va|]; try done; cbn [holds] in Hh;
    destruct Hcls as [-> | ->]; exec; try done;
    (split; [eexists; split; [reflexivity|solve_read] | done]).
Qed.

Lemma AdagradOptimizer_apply_grad_spec s acc g x (w : world F) vacc vg vx :
  self w = AdagradOptimizer s acc ->
  holds (heap w) acc vacc ->
  read (heap w) (Arr g) = Ok vg ->
  read (heap w) (Arr x) = Ok vx ->
  (forall a, acc = Some a -> buf a <> buf g /\ buf a <> buf x) ->
  match Spec.adagrad_accumulation vacc vg with
  | Ok v =>
      (exists a, self (apply_grad g x w).2 = with_accumulation (Some a) (self w) /\
                 read (heap (apply_grad g x w).2) (Arr a) = Ok v) /\
      final_value (apply_grad g x w) = Spec.adaptive_update s v vx vg
  | Raise e => (apply_grad g x w).1 = Raise e /\ self (apply_grad g x w).2 = self w
  end.
Proof.
  intros Hcls Hh Hg Hx Hown. destruct w as [h o]. cbn [heap self] in *. subst o.
  unfold apply_grad, AdagradOptimizer_apply_grad, Spec.adagrad_accumulation,
    Spec.adaptive_update, vmul, vadd, vsub, vdiv.
  destruct acc as [a|], vacc as [va|]; try done; cbn [holds] in Hh.
  - destruct (Hown a eq_refl) as [Hag Hax].
    exec; try done.
    all: try (split; [eexists; split; [reflexivity|solve_read] | done]).
  - exec; try done.
    all: try (split; [eexists; split; [reflexivity|solve_read] | done]).
Qed.

Lemma RMSPropOptimizer_apply_grad_spec s dc acc g x (w : world F) vacc vg vx :
  self w = RMSPropOptimizer s dc acc ->
  holds (heap w) acc vacc ->
  read (heap w) (Arr g) = Ok vg ->
  read (heap w) (Arr x) = Ok vx ->
  match Spec.rmsprop_accumulation dc vacc vg with
  | Ok v =>
      (exists a, self (apply_grad g x w).2 = with_accumulation (Some a) (self w) /\
                 read (heap (apply_grad g x w).2) (Arr a) = Ok v) /\
      final_value (apply_grad g x w) = Spec.adaptive_update s v vx vg
  | Raise e => (apply_grad g x w).1 = Raise e /\ self (apply_grad g x w).2 = self w
  end.
Proof.
  intros Hcls Hh Hg Hx. destruct w as [h o]. cbn [heap self] in *. subst o.
  unfold apply_grad, RMSPropOptimizer_apply_grad, Spec.rmsprop_accumulation,
    Spec.adaptive_update, vmul, vadd, vsub, vdiv.
  destruct acc as [a|], vacc as [va|]; try done; cbn [holds] in Hh;
    exec; try done;
    (split; [eexists; split; [reflexivity|solve_read] | done]).
Qed.

Lemma AdamOptimizer_apply_grad_spec s b1 b2 fm sm n g x (w : world F) vfm vsm vg vx :
  self w = AdamOptimizer s b1 b2 fm sm n ->
  holds (heap w) fm vfm ->
  holds (heap w) sm vsm ->
  read (heap w) (Arr g) = Ok vg ->
  read (heap w) (Arr x) = Ok vx ->
  t (self (apply_grad g x w).2) = (n + 1)%Z /\
  match Spec.adam_firstmoment b1 vfm vg with
  | Ok v1 =>
      match Spec.adam_secondmoment b2 vsm vg with
      | Ok v2 =>
          (exists a1 a2,
              self (apply_grad g x w).2 =
                AdamOptimizer s b1 b2 (Some a1) (Some a2) (n + 1) /\
              read (heap (apply_grad g x w).2) (Arr a1) = Ok v1 /\
              read (heap (apply_grad g x w).2) (Arr a2) = Ok v2) /\
          final_value (apply_grad g x w) =
            Spec.adam_update (adapted_stepsize s b1 b2 (n + 1)) v1 v2 vx
      | Raise e =>
          (apply_grad g x w).1 = Raise e /\
          secondmoment (self (apply_grad g x w).2) = sm
      end
  | Raise e =>
      (apply_grad g x w).1 = Raise e /\
      firstmoment (self (apply_grad g x w).2) = fm /\
      secondmoment (self (apply_grad g x w).2) = sm
  end.
Proof.
  intros Hcls Hf Hs Hg Hx. destruct w as [h o]. cbn [heap self] in *. subst o.
  unfold apply_grad, AdamOptimizer_apply_grad, Spec.adam_firstmoment,
    Spec.adam_secondmoment, Spec.adam_update, vmul, vadd, vsub, vdiv.
  destruct fm as [a1|], vfm as [v1|]; try done; cbn [holds] in Hf;
    destruct sm as [a2|], vsm as [v2|]; try done; cbn [holds] in Hs;
    exec; try done.
  all: try (split; [done|]).
  all: try (split; [do 2 eexists; split; [reflexivity|split; solve_read] | done]).
Qed.
End ApplyGrad.



Section Step.
Context {F : Type} `{Scalar F}.
Context {objective : Type}.
Variable autograd : objective -> grad_function F.
Local Open Scope prog_scope.


Lemma step_gradient f x gf (w : world F) :
  step autograd f x gf w = (g <- gradient autograd f x gf;; apply_grad g x) w.
Proof.
  unfold step, gradient, bind.
  destruct (compute_grad autograd f x gf w) as [[g|e] w1]; [|done].
  by destruct (if 1 <? length (shape x) then _ else _) as [[?|?] ?].
Qed.

Lemma call_self {A} (k : store F -> result A * store F) (w : world F) :
  self (call k w).2 = self w.
Proof. unfold call. by destruct (k (heap w)). Qed.

Lemma np_binop_self op a b (w : world F) : self (np_binop op a b w).2 = self w.
Proof.
  rewrite np_binop_eq.
  destruct (read (heap w) a); [|done]. destruct (read (heap w) b); [|done].
  by destruct (vbinop op _ _).
Qed.

Lemma compute_grad_base f x gf (w : world F) :
  (forall s m a, self w <> NesterovMomentumOptimizer s m a) ->
  compute_grad autograd f x gf w = call (the_grad autograd f gf x) w.
Proof.
  intros Hn. unfold compute_grad, bind, get_self.
  destruct (self w) eqn:E; try by destruct gf.
  by destruct (Hn stepsize0 momentum0 accumulation0).
Qed.

Lemma compute_grad_self f x gf (w : world F) :
  self (compute_grad autograd f x gf w).2 = self w.
Proof.
  unfold compute_grad, bind, get_self.
  assert (Hb : self (GradientDescentOptimizer_compute_grad autograd f x gf w).2 = self w).
  { unfold GradientDescentOptimizer_compute_grad. destruct gf; apply call_self. }
  destruct (self w) eqn:E; try exact Hb.
  unfold NesterovMomentumOptimizer_compute_grad, bind, get_self, ret.
  rewrite E. cbn [accumulation].
  destruct accumulation0 as [a|].
  - pose proof (np_binop_self fmul (Sc momentum0) (Arr a) w) as H1.
    destruct (np_binop fmul (Sc momentum0) (Arr a) w) as [[m|e] w1]; cbn [snd] in *;
      [|congruence].
    pose proof (np_binop_self fsub (Arr x) (Arr m) w1) as H2.
    destruct (np_binop fsub (Arr x) (Arr m) w1) as [[sx|e] w2]; cbn [snd] in *;
      [|congruence].
    destruct gf; rewrite call_self; congruence.
  - destruct gf; rewrite call_self; congruence.
Qed.

Lemma gradient_self f x gf (w : world F) :
  self (gradient autograd f x gf w).2 = self w.
Proof.
  unfold gradient, bind.
  pose proof (compute_grad_self f x gf w) as Hc.
  destruct (compute_grad autograd f x gf w) as [[g|e] w1]; cbn [snd] in *; [|done].
  destruct (1 <? length (shape x)); [|done].
  unfold np_reshape. by destruct (size_of (shape g) =? size_of (shape x)).
Qed.

(** A call of [step] whose gradient computation returns [g] continues as
    [apply_grad g x], on the same optimizer. *)
Lemma step_apply_grad f x gf (w : world F) g w1 :
  gradient autograd f x gf w = (Ok g, w1) ->
  step autograd f x gf w = apply_grad g x w1 /\ self w1 = self w.
Proof.
  intros Hg. split.
  - rewrite step_gradient. unfold bind. by rewrite Hg.
  - pose proof (gradient_self f x gf w) as Hs. by rewrite Hg in Hs.
Qed.

End Step.

(** ** Which buffers a computation leaves alone *)

Section Frames.
Context {F : Type} `{Scalar F}.
Context {objective : Type}.
Variable autograd : objective -> grad_function F.
Local Open Scope prog_scope.

Lemma bind_get_self {A} (k : optimizer F -> M F A) (w : world F) :
  bind get_self k w = k (self w) w.
Proof. reflexivity. Qed.

Lemma preserves_bind {A B} l (m : M F A) (k : A -> M F B) :
  preserves l m -> (forall a, preserves l (k a)) -> preserves l (bind m k).
Proof.
  intros Hm Hk w d Hd. unfold bind. specialize (Hm w d Hd).
  destruct (m w) as [[a|e] w1]; cbn [snd] in *; [|done]. by apply Hk.
Qed.

Lemma preserves_ret {A} l (a : A) : preserves l (ret (F:=F) a).
Proof. by intros w d Hd. Qed.

Lemma preserves_raise {A} l e : preserves l (raise (F:=F) (A:=A) e).
Proof. by intros w d Hd. Qed.

Lemma preserves_get_self l : preserves l (get_self (F:=F)).
Proof. by intros w d Hd. Qed.

Lemma preserves_set_self l f : preserves l (set_self (F:=F) f).
Proof. by intros w d Hd. Qed.

Lemma preserves_the_array l a : preserves l (the_array (F:=F) a).
Proof. by destruct a; intros w d Hd. Qed.

Lemma preserves_np_binop l op a b : preserves l (np_binop (F:=F) op a b).
Proof.
  intros w d Hd. rewrite np_binop_eq.
  destruct (read (heap w) a); [|done]. destruct (read (heap w) b); [|done].
  destruct (vbinop op _ _); [|done]. cbn [snd heap].
  by apply lookup_app_l_Some.
Qed.

Lemma preserves_np_sqrt l a : preserves l (np_sqrt (F:=F) a).
Proof.
  intros w d Hd. rewrite np_sqrt_eq.
  destruct (read (heap w) (Arr a)); [|done]. cbn [snd heap].
  by apply lookup_app_l_Some.
Qed.

Lemma preserves_np_reshape l g s : preserves l (np_reshape (F:=F) g s).
Proof.
  intros w d Hd. unfold np_reshape. by destruct (size_of (shape g) =? size_of s).
Qed.

Lemma preserves_np_iadd l a b : buf a <> l -> preserves l (np_iadd (F:=F) a b).
Proof.
  intros Hne w d Hd. rewrite np_iadd_eq.
  destruct (read (heap w) (Arr a)); [|done]. destruct (read (heap w) b); [|done].
  destruct (viadd _ _); [|done]. destruct (shape a); cbn [snd heap].
  - by apply lookup_app_l_Some.
  - by rewrite list_lookup_insert_ne.
Qed.

Lemma preserves_call {A} l (k : store F -> result A * store F) :
  (forall h d, h !! l = Some d -> (k h).2 !! l = Some d) -> preserves l (call k).
Proof.
  intros Hk w d Hd. unfold call. specialize (Hk (heap w) d Hd).
  by destruct (k (heap w)).
Qed.

End Frames.

Ltac solve_preserves :=
  repeat first
    [ assumption
    | apply preserves_ret | apply preserves_raise
    | apply preserves_get_self | apply preserves_set_self
    | apply preserves_the_array
    | apply preserves_np_binop | apply preserves_np_sqrt
    | apply preserves_np_reshape
    | apply preserves_np_iadd; assumption
    | apply preserves_bind; [|intros ?]
    | match goal with
      | |- preserves _ (match ?o with _ => _ end) => destruct o
      | |- preserves _ (if ?b then _ else _) => destruct b
      end ].

Section FrameOfStep.
Context {F : Type} `{Scalar F}.
Context {objective : Type}.
Variable autograd : objective -> grad_function F.
Local Open Scope prog_scope.

Lemma compute_grad_preserves l f x gf :
  fn_preserves l (the_grad autograd f gf) ->
  preserves l (compute_grad autograd f x gf).
Proof.
  intros Hf.
  assert (Hc : forall y, preserves l
            (match gf with
             | Some grad_fn => call (grad_fn y)
             | None => call (autograd f y)
             end)).
  { intros y. destruct gf; apply preserves_call; intros h d; apply Hf. }
  unfold compute_grad, NesterovMomentumOptimizer_compute_grad,
    GradientDescentOptimizer_compute_grad.
  solve_preserves; apply Hc.
Qed.

Lemma gradient_preserves l f x gf :
  fn_preserves l (the_grad autograd f gf) ->
  preserves l (gradient autograd f x gf).
Proof.
  intros Hf. unfold gradient. apply preserves_bind; [by apply compute_grad_preserves|].
  intros g. solve_preserves.
Qed.

(** [apply_grad] writes to no buffer of the store but the one of
    [self.accumulation]. *)
Lemma apply_grad_preserves l g x (w : world F) d :
  heap w !! l = Some d ->
  (forall a, accumulation (self w) = Some a -> buf a <> l) ->
  heap (apply_grad g x w).2 !! l = Some d.
Proof.
  intros Hd Hown. unfold apply_grad. rewrite bind_get_self.
  destruct (self w) as [s|s m a|s m a|s a|s dc a|s b1 b2 fm sm n] eqn:E.
  4: { unfold AdagradOptimizer_apply_grad. rewrite bind_get_self, E.
       cbn [accumulation] in *.
       match goal with
       | |- heap (?m w).2 !! _ = _ => enough (Hp : preserves l m) by exact (Hp w d Hd)
       end.
       destruct a as [a|]; [specialize (Hown a eq_refl)|]; solve_preserves. }
  all: match goal with
       | Hd : heap ?w !! ?l = Some ?d |- heap (?m ?w).2 !! _ = _ =>
           enough (Hp : preserves l m) by exact (Hp w d Hd)
       end.
  all: unfold GradientDescentOptimizer_apply_grad, MomentumOptimizer_apply_grad,
         RMSPropOptimizer_apply_grad, AdamOptimizer_apply_grad; solve_preserves.
Qed.

Lemma np_binop_fresh op a b (w : world F) l d r :
  heap w !! l = Some d -> (np_binop op a b w).1 = Ok r -> buf r <> l.
Proof.
  intros Hd. rewrite np_binop_eq.
  destruct (read (heap w) a); [|done]. destruct (read (heap w) b); [|done].
  destruct (vbinop op _ _); [|done]. cbn [fst]. intros [= <-]. cbn [buf].
  apply lookup_lt_Some in Hd. lia.
Qed.

Lemma returns_off_bind {A B} l proj (m : M F A) (k : A -> M F B) :
  preserves l m -> (forall a, returns_off l proj (k a)) ->
  returns_off l proj (bind m k).
Proof.
  intros Hm Hk w d r Hd. unfold bind. specialize (Hm w d Hd).
  destruct (m w) as [[a|e] w1]; cbn [snd] in *; [|done]. by eapply Hk.
Qed.

Lemma returns_off_np_binop l op a b : returns_off l buf (np_binop (F:=F) op a b).
Proof. intros w d r. apply np_binop_fresh. Qed.

End FrameOfStep.

Ltac solve_returns_off :=
  repeat first
    [ apply returns_off_np_binop
    | apply returns_off_bind; [solve_preserves|intros ?] ].

Section Fresh.
Context {F : Type} `{Scalar F}.
Local Open Scope prog_scope.

(** The array [apply_grad] returns is a new one. *)
Lemma apply_grad_fresh l g x (w : world F) d r :
  heap w !! l = Some d ->
  (forall a, accumulation (self w) = Some a -> buf a <> l) ->
  (apply_grad g x w).1 = Ok r -> buf r <> l.
Proof.
  intros Hd Hown. unfold apply_grad. rewrite bind_get_self.
  destruct (self w) as [s|s m a|s m a|s a|s dc a|s b1 b2 fm sm n] eqn:E.
  4: { unfold AdagradOptimizer_apply_grad. rewrite bind_get_self, E.
       cbn [accumulation] in *.
       match goal with
       | |- (?m w).1 = _ -> _ =>
           enough (Hp : returns_off l buf m) by exact (Hp w d r Hd)
       end.
       destruct a as [a|]; [specialize (Hown a eq_refl)|]; solve_returns_off. }
  all: match goal with
       | Hd : heap ?w !! ?l = Some ?d |- (?m ?w).1 = Ok ?r -> _ =>
           enough (Hp : returns_off l buf m) by exact (Hp w d r Hd)
       end.
  all: unfold GradientDescentOptimizer_apply_grad, MomentumOptimizer_apply_grad,
         RMSPropOptimizer_apply_grad, AdamOptimizer_apply_grad; solve_returns_off.
Qed.

End Fresh.



(** ** Broadcasting on well-formed values *)

Section Broadcast.
Context {F : Type} `{Scalar F}.

Lemma broadcast_rev_same s : broadcast_rev s s = Some s.
Proof.
  induction s as [|n s IH]; [done|]. cbn [broadcast_rev].
  by rewrite Nat.eqb_refl, IH.
Qed.

Lemma broadcast_shape_same s : broadcast_shape s s = Some s.
Proof.
  unfold broadcast_shape. rewrite broadcast_rev_same. cbn.
  by rewrite reverse_involutive.
Qed.

Lemma broadcast_shape_nil_l s : broadcast_shape [] s = Some s.
Proof. unfold broadcast_shape. cbn. by rewrite reverse_involutive. Qed.

Lemma broadcast_shape_nil_r s : broadcast_shape s [] = Some s.
Proof.
  unfold broadcast_shape. rewrite reverse_nil.
  rewrite <- (reverse_involutive s) at 2.
  by destruct (reverse s).
Qed.

Lemma chunks_join k n (d : list F) :
  length d = n * k -> mjoin (chunks k n d) = d.
Proof.
  revert d. induction n as [|n IH]; intros d Hd; cbn [chunks].
  - by destruct d.
  - cbn [mjoin list_join]. rewrite IH.
    + apply take_drop.
    + rewrite length_drop. lia.
Qed.

Lemma chunks_length k n (d : list F) :
  length d = n * k -> Forall (fun c => length c = k) (chunks k n d).
Proof.
  revert d. induction n as [|n IH]; intros d Hd; cbn [chunks]; constructor.
  - rewrite length_take. lia.
  - apply IH. rewrite length_drop. lia.
Qed.

Lemma broadcast_to_same s (d : list F) :
  length d = size_of s -> broadcast_to s s d = d.
Proof.
  revert d. induction s as [|n s IH]; intros d Hd; [done|].
  cbn [broadcast_to]. rewrite Nat.ltb_irrefl, Nat.eqb_refl.
  cbn [size_of foldr] in Hd. fold (size_of s) in *.
  rewrite <- (chunks_join (size_of s) n d Hd) at 2. f_equal.
  rewrite <- (list_fmap_id (chunks (size_of s) n d)) at 2.
  apply Forall_fmap_ext. eapply Forall_impl; [by apply chunks_length|].
  intros c Hc. by apply IH.
Qed.

Lemma join_replicate n k (c : F) :
  mjoin (replicate n (replicate k c)) = replicate (n * k) c.
Proof.
  induction n as [|n IH]; [done|].
  change (mjoin (replicate (S n) (replicate k c))) with
    (replicate k c ++ mjoin (replicate n (replicate k c))).
  rewrite IH. by rewrite <- replicate_add.
Qed.

Lemma broadcast_to_scalar s (c : F) :
  broadcast_to [] s [c] = replicate (size_of s) c.
Proof.
  induction s as [|n s IH]; [done|].
  cbn [broadcast_to length]. 
  assert ((0 <? S (length s)) = true) as -> by (apply Nat.ltb_lt; lia).
  rewrite IH. apply join_replicate.
Qed.

Lemma vbinop_same_shape op (a b : value F) :
  wf_value a -> wf_value b -> vshape a = vshape b ->
  vbinop op a b =
    Ok {| vshape := vshape a; vdata := zip_with op (vdata a) (vdata b) |}.
Proof.
  unfold wf_value, vbinop. intros Ha Hb Hs. rewrite <- Hs, broadcast_shape_same.
  rewrite !broadcast_to_same; [done| |done]. by rewrite Hs.
Qed.

Lemma vbinop_scalar_l op (c : F) (b : value F) :
  wf_value b -> vbinop op (scalar c) b = Ok (vmap (op c) b).
Proof.
  unfold wf_value, vbinop, vmap. intros Hb. cbn [scalar vshape vdata].
  rewrite broadcast_shape_nil_l, broadcast_to_scalar, broadcast_to_same by done.
  rewrite zip_with_replicate_l; [done|lia].
Qed.

Lemma vbinop_scalar_r op (a : value F) (c : F) :
  wf_value a -> vbinop op a (scalar c) = Ok (vmap (fun e => op e c) a).
Proof.
  unfold wf_value, vbinop, vmap. intros Ha. cbn [scalar vshape vdata].
  rewrite broadcast_shape_nil_r, broadcast_to_scalar, broadcast_to_same by done.
  rewrite zip_with_replicate_r; [done|lia].
Qed.

Lemma wf_full s (c : F) : wf_value (full s c).
Proof. unfold wf_value, full. cbn. apply length_replicate. Qed.

Lemma vmap_full f s (c : F) : vmap f (full s c) = full s (f c).
Proof. unfold vmap, full. cbn [vshape vdata]. by rewrite fmap_replicate. Qed.

Lemma vbinop_full_scalar_l op c s (z : F) :
  vbinop op (scalar c) (full s z) = Ok (full s (op c z)).
Proof. rewrite vbinop_scalar_l by apply wf_full. by rewrite vmap_full. Qed.

Lemma vbinop_full_scalar_r op s (z c : F) :
  vbinop op (full s z) (scalar c) = Ok (full s (op z c)).
Proof. rewrite vbinop_scalar_r by apply wf_full. by rewrite vmap_full. Qed.

Lemma vbinop_full_full op s (a b : F) :
  vbinop op (full s a) (full s b) = Ok (full s (op a b)).
Proof.
  rewrite vbinop_same_shape; [|apply wf_full..|done].
  unfold full. cbn [vshape vdata]. f_equal. f_equal.
  apply zip_with_replicate.
Qed.

Lemma vbinop_full_r op (a : value F) (z : F) :
  wf_value a ->
  vbinop op a (full (vshape a) z) = Ok (vmap (fun e => op e z) a).
Proof.
  intros Ha. rewrite vbinop_same_shape; [|done|apply wf_full|done].
  unfold full, vmap. cbn [vshape vdata]. f_equal. f_equal.
  rewrite zip_with_replicate_r; [done|]. unfold wf_value in Ha. lia.
Qed.

End Broadcast.



Section RealFacts.
Local Open Scope R_scope.

Lemma one_R : one (F:=R) = 1.
Proof. reflexivity. Qed.

Lemma eps_R : eps (F:=R) = / 100000000.
Proof. unfold eps. cbn [of_decimal R_Scalar]. cbv [powerRZ]. simpl. lra. Qed.

End RealFacts.

(** Runs a program on an example, leaving the arithmetic as it stands. *)
Ltac run_example :=
  lazy -[Rplus Rmult Rminus Rdiv sqrt IZR Q2R eps]; reflexivity.


(** Broadcasting at work, in binary64. *)
Example broadcast_column_row :
  vadd {| vshape := [2; 1]; vdata := [1; 2]%float |}
       {| vshape := [3]; vdata := [10; 20; 30]%float |} =
    Ok {| vshape := [2; 3]; vdata := [11; 21; 31; 12; 22; 32]%float |}.
Proof. vm_compute. reflexivity. Qed.

Example broadcast_mismatch :
  vadd {| vshape := [2]; vdata := [1; 2]%float |}
       {| vshape := [3]; vdata := [10; 20; 30]%float |} = Raise ValueError.
Proof. reflexivity. Qed.

Example iadd_keeps_shape :
  viadd {| vshape := [2]; vdata := [1; 2]%float |}
        {| vshape := [2; 2]; vdata := [1; 2; 3; 4]%float |} = Raise ValueError.
Proof. reflexivity. Qed.

Example iadd_scalar_rebinds :
  viadd (scalar 1%float) {| vshape := [2]; vdata := [1; 2]%float |} =
    Ok {| vshape := [2]; vdata := [2; 3]%float |}.
Proof. vm_compute. reflexivity. Qed.

Section Claims.
Context {F : Type} `{Scalar F}.
Context {objective : Type}.
Variable autograd : objective -> grad_function F.
Local Open Scope prog_scope.

Lemma reshape_view (h : store F) g s v :
  read h (Arr g) = Ok v -> size_of (shape g) = size_of s ->
  Ok (A:=value F) {| vshape := s; vdata := vdata v |} = vreshape v s /\
  read h (Arr {| buf := buf g; shape := s |}) = vreshape v s.
Proof.
  intros Hr Hs. unfold vreshape. rewrite (read_shape _ _ _ Hr), Hs, Nat.eqb_refl.
  split; [done|]. unfold read in *. cbn [buf shape].
  destruct (h !! buf g); [|done]. by injection Hr as <-.
Qed.

(** C8: in [step] the gradient that [compute_grad] returned is reshaped to
    the shape of [x] exactly when [x] has more than one dimension (the
    reshaped gradient is a view with the same elements, and a gradient of
    another size is a [ValueError]); for a 0-d or 1-d [x] it goes to
    [apply_grad] as it is.  On a [GradientDescentOptimizer] the call then
    returns [x - stepsize * g], and changes neither the optimizer nor any
    array of the store. *)
Theorem step_reshapes_gradient f x gf (w : world F) g0 w1 :
  compute_grad autograd f x gf w = (Ok g0, w1) ->
  (1 < length (shape x) ->
     step autograd f x gf w =
       (if size_of (shape g0) =? size_of (shape x)
        then apply_grad {| buf := buf g0; shape := shape x |} x w1
        else (Raise ValueError, w1)) /\
     forall v0, read (heap w1) (Arr g0) = Ok v0 ->
       size_of (shape g0) = size_of (shape x) ->
       read (heap w1) (Arr {| buf := buf g0; shape := shape x |}) =
         vreshape v0 (shape x)) /\
  (length (shape x) <= 1 -> step autograd f x gf w = apply_grad g0 x w1) /\
  (forall s g w2 vg vx,
     self w = GradientDescentOptimizer s ->
     gradient autograd f x gf w = (Ok g, w2) ->
     read (heap w2) (Arr g) = Ok vg ->
     read (heap w2) (Arr x) = Ok vx ->
     final_value (step autograd f x gf w) = Spec.gd_update s vx vg /\
     self (step autograd f x gf w).2 = self w /\
     forall l d, heap w2 !! l = Some d ->
       heap (step autograd f x gf w).2 !! l = Some d).
Proof.
  intros Hc. split; [|split].
  - intros Hnd. split.
    + unfold step, bind. rewrite Hc.
      apply Nat.ltb_lt in Hnd. rewrite Hnd. unfold np_reshape.
      by destruct (size_of (shape g0) =? size_of (shape x)).
    + intros v0 Hr Hs. by apply reshape_view.
  - intros Hnd. unfold step, bind. rewrite Hc.
    assert ((1 <? length (shape x)) = false) as -> by (apply Nat.ltb_ge; lia).
    done.
  - intros s g w2 vg vx Hcls Hg Hrg Hrx.
    destruct (step_apply_grad autograd f x gf w g w2 Hg) as [-> Hs].
    rewrite <- Hs in Hcls.
    destruct (GradientDescentOptimizer_apply_grad_spec s g x w2 vg vx Hcls Hrg Hrx)
      as [Hv Hself].
    split; [done|]. split; [congruence|].
    intros l d Hd. apply apply_grad_preserves; [done|].
    intros a. by rewrite Hcls.
Qed.

(** C9: when the gradient computation of a [step] call raises, the call
    raises the same exception and ends in the state the gradient
    computation left: the attributes of the optimizer are the ones before
    the call, and so are the elements of every array that the function
    computing the gradient left alone. *)
Theorem failed_gradient_keeps_state f x gf (w : world F) e w1 :
  compute_grad autograd f x gf w = (Raise e, w1) ->
  step autograd f x gf w = (Raise e, w1) /\
  self w1 = self w /\
  (forall l d, fn_preserves l (the_grad autograd f gf) ->
     heap w !! l = Some d -> heap w1 !! l = Some d).
Proof.
  intros Hc. split; [|split].
  - unfold step, bind. by rewrite Hc.
  - pose proof (compute_grad_self autograd f x gf w) as Hs. by rewrite Hc in Hs.
  - intros l d Hf Hd.
    pose proof (compute_grad_preserves autograd l f x gf Hf w d Hd) as Hp.
    by rewrite Hc in Hp.
Qed.

(** C10: [step] does not change the elements of [x], nor of any other
    array of the store that is not the optimizer's own [accumulation] and
    that the function computing the gradient leaves alone; the array it
    returns is a new one, not [x]. *)
Theorem step_never_mutates_x f x gf (w : world F) d :
  heap w !! buf x = Some d ->
  fn_preserves (buf x) (the_grad autograd f gf) ->
  (forall a, accumulation (self w) = Some a -> buf a <> buf x) ->
  heap (step autograd f x gf w).2 !! buf x = Some d /\
  (forall r, (step autograd f x gf w).1 = Ok r -> buf r <> buf x) /\
  (forall l c, heap w !! l = Some c ->
     fn_preserves l (the_grad autograd f gf) ->
     (forall a, accumulation (self w) = Some a -> buf a <> l) ->
     heap (step autograd f x gf w).2 !! l = Some c).
Proof.
  intros Hd Hf Hown.
  assert (Hgen : forall l c, heap w !! l = Some c ->
     fn_preserves l (the_grad autograd f gf) ->
     (forall a, accumulation (self w) = Some a -> buf a <> l) ->
     heap (step autograd f x gf w).2 !! l = Some c /\
     (forall r, (step autograd f x gf w).1 = Ok r -> buf r <> l)).
  { intros l c Hc Hfl Hownl. rewrite step_gradient. unfold bind.
    pose proof (gradient_preserves autograd l f x gf Hfl w c Hc) as Hp.
    pose proof (gradient_self autograd f x gf w) as Hs.
    destruct (gradient autograd f x gf w) as [[g|e] w1]; cbn [fst snd] in *; [|done].
    rewrite <- Hs in Hownl. split.
    - by apply apply_grad_preserves.
    - intros r. by eapply apply_grad_fresh. }
  destruct (Hgen (buf x) d Hd Hf Hown) as [H1 H2].
  split; [done|]. split; [done|].
  intros l c Hc Hfl Hownl. by apply Hgen.
Qed.

End Claims.



Section Claims2.
Context {F : Type} `{Scalar F}.
Context {objective : Type}.
Variable autograd : objective -> grad_function F.
Local Open Scope prog_scope.

(** C2: on every class with accumulated state, [reset] leaves the optimizer
    as [__init__] builds it from the same hyperparameters: the accumulated
    state is unset, [t] is 0 and [stepsize], [momentum], [decay], [beta1]
    and [beta2] are unchanged.  So [reset()] followed by [step] is [step] on
    a newly constructed optimizer. *)
Theorem reset_then_step (o : optimizer F) (h : store F) f x gf :
  has_memory o ->
  reset {| heap := h; self := o |} =
    (Ok tt, {| heap := h; self := just_constructed o |}) /\
  (reset;; step autograd f x gf) {| heap := h; self := o |} =
    step autograd f x gf {| heap := h; self := just_constructed o |} /\
  stepsize (just_constructed o) = stepsize o /\
  momentum (just_constructed o) = momentum o /\
  decay (just_constructed o) = decay o /\
  beta1 (just_constructed o) = beta1 o /\
  beta2 (just_constructed o) = beta2 o /\
  accumulation (just_constructed o) = None /\
  firstmoment (just_constructed o) = None /\
  secondmoment (just_constructed o) = None /\
  t (just_constructed o) = 0%Z.
Proof.
  intros Hm.
  assert (Hr : reset {| heap := h; self := o |} =
                 (Ok tt, {| heap := h; self := just_constructed o |}))
    by (by destruct o).
  split; [exact Hr|]. split; [unfold bind; by rewrite Hr|].
  by destruct o.
Qed.

Lemma call_world {A} (k : store F -> result A * store F) (h : store F) o :
  call k {| heap := h; self := o |} =
    ((k h).1, {| heap := (k h).2; self := o |}).
Proof. unfold call. cbn [heap self]. by destruct (k h). Qed.

(** The gradient computation of the classes that do not override
    [compute_grad] does not depend on the optimizer. *)
Lemma gradient_any_class f x gf (h : store F) o o' :
  (forall s m a, o <> NesterovMomentumOptimizer s m a) ->
  (forall s m a, o' <> NesterovMomentumOptimizer s m a) ->
  (gradient autograd f x gf {| heap := h; self := o' |}).1 =
    (gradient autograd f x gf {| heap := h; self := o |}).1 /\
  heap (gradient autograd f x gf {| heap := h; self := o' |}).2 =
    heap (gradient autograd f x gf {| heap := h; self := o |}).2.
Proof.
  intros Ho Ho'. unfold gradient, bind.
  rewrite !compute_grad_base by done. rewrite !call_world.
  destruct (the_grad autograd f gf x h) as [[g|e] h1]; cbn [fst snd]; [|done].
  destruct (1 <? length (shape x)); [|done].
  unfold np_reshape. by destruct (size_of (shape g) =? size_of (shape x)).
Qed.

(** C5: a [step] of a [MomentumOptimizer] with gradient [g] sets
    [accumulation] to [stepsize * g] when it was unset and to
    [momentum * accumulation + stepsize * g] otherwise, and returns
    [x - accumulation]; the first call returns what plain gradient descent
    returns, [x - stepsize * g]. *)
Theorem Momentum_step f x gf (w : world F) s m acc vacc g w1 vg vx :
  self w = MomentumOptimizer s m acc ->
  gradient autograd f x gf w = (Ok g, w1) ->
  holds (heap w1) acc vacc ->
  read (heap w1) (Arr g) = Ok vg ->
  read (heap w1) (Arr x) = Ok vx ->
  match Spec.momentum_accumulation s m vacc vg with
  | Ok v =>
      (exists a, self (step autograd f x gf w).2 = MomentumOptimizer s m (Some a) /\
                 read (heap (step autograd f x gf w).2) (Arr a) = Ok v) /\
      final_value (step autograd f x gf w) = vsub vx v
  | Raise e =>
      (step autograd f x gf w).1 = Raise e /\
      self (step autograd f x gf w).2 = self w
  end /\
  (acc = None ->
     final_value (step autograd f x gf w) = Spec.gd_update s vx vg /\
     final_value (step autograd f x gf w) =
       final_value (step autograd f x gf
                      {| heap := heap w; self := GradientDescentOptimizer s |})).
Proof.
  intros Hcls Hg Hacc Hrg Hrx.
  destruct (step_apply_grad autograd f x gf w g w1 Hg) as [Hstep Hs].
  rewrite Hstep. rewrite <- Hs in *.
  pose proof (MomentumOptimizer_apply_grad_spec s m acc g x w1 vacc vg vx
                (or_introl Hcls) Hacc Hrg Hrx) as Hspec.
  split.
  - destruct (Spec.momentum_accumulation s m vacc vg) as [v|e]; [|done].
    destruct Hspec as [(a & Ha & Hra) Hv]. split; [|done].
    exists a. split; [|done]. by rewrite Ha, Hcls.
  - intros ->. destruct vacc; [done|].
    assert (Hgd : final_value (apply_grad g x w1) = Spec.gd_update s vx vg).
    { cbn [Spec.momentum_accumulation] in Hspec. unfold Spec.gd_update.
      unfold mbind, result_bind, rbind.
      destruct (vmul (scalar s) vg) as [v|e]; [by destruct Hspec|].
      destruct Hspec as [He _]. unfold final_value.
      destruct (apply_grad g x w1) as [[r|e'] w2]; cbn [fst] in He; congruence. }
    split; [exact Hgd|]. rewrite Hgd.
    destruct w as [h o], w1 as [h1 o1]. cbn [heap self] in *. subst o1 o.
    destruct (gradient_any_class f x gf h (MomentumOptimizer s m None)
                (GradientDescentOptimizer s)) as [E1 E2]; [done..|].
    rewrite Hg in E1, E2. cbn [fst snd heap] in E1, E2.
    destruct (gradient autograd f x gf {| heap := h; self := GradientDescentOptimizer s |})
      as [r' w'] eqn:Eg.
    cbn [fst snd] in E1, E2. subst r'.
    destruct (step_apply_grad autograd f x gf _ g w' Eg) as [Hstep' Hs'].
    rewrite Hstep'. cbn [self] in Hs'.
    symmetry.
    apply (GradientDescentOptimizer_apply_grad_spec s g x w' vg vx); [done|..];
      by rewrite E2.
Qed.

End Claims2.

Ltac exec_any_step :=
  first
    [ exec_step
    | match goal with
      | |- context [match read ?h ?o with _ => _ end] =>
          destruct (read h o) eqn:?
      end ].

Ltac exec_any := repeat exec_any_step.

Section Claims3.
Context {F : Type} `{Scalar F}.
Context {objective : Type}.
Variable autograd : objective -> grad_function F.
Local Open Scope prog_scope.

(** C7: a [step] of an [RMSPropOptimizer] with gradient [g] sets
    [accumulation] to [(1 - decay) * (g * g)] when it was unset and to
    [decay * accumulation + (1 - decay) * (g * g)] otherwise, and returns
    [x - (stepsize / sqrt(accumulation + 1e-8)) * g], the formula of
    Adagrad. *)
Theorem RMSProp_step f x gf (w : world F) s dc acc vacc g w1 vg vx :
  self w = RMSPropOptimizer s dc acc ->
  gradient autograd f x gf w = (Ok g, w1) ->
  holds (heap w1) acc vacc ->
  read (heap w1) (Arr g) = Ok vg ->
  read (heap w1) (Arr x) = Ok vx ->
  match Spec.rmsprop_accumulation dc vacc vg with
  | Ok v =>
      (exists a, self (step autograd f x gf w).2 = RMSPropOptimizer s dc (Some a) /\
                 read (heap (step autograd f x gf w).2) (Arr a) = Ok v) /\
      final_value (step autograd f x gf w) = Spec.adaptive_update s v vx vg
  | Raise e =>
      (step autograd f x gf w).1 = Raise e /\
      self (step autograd f x gf w).2 = self w
  end.
Proof.
  intros Hcls Hg Hacc Hrg Hrx.
  destruct (step_apply_grad autograd f x gf w g w1 Hg) as [Hstep Hs].
  rewrite Hstep. rewrite <- Hs in *.
  pose proof (RMSPropOptimizer_apply_grad_spec s dc acc g x w1 vacc vg vx
                Hcls Hacc Hrg Hrx) as Hspec.
  destruct (Spec.rmsprop_accumulation dc vacc vg) as [v|e]; [|done].
  destruct Hspec as [(a & Ha & Hra) Hv]. split; [|done].
  exists a. split; [|done]. by rewrite Ha, Hcls.
Qed.

(** The update of [MomentumOptimizer] runs the same on a
    [NesterovMomentumOptimizer]. *)
Lemma apply_grad_Nesterov s m acc g y (h : store F) :
  apply_grad g y {| heap := h; self := NesterovMomentumOptimizer s m acc |} =
    ((apply_grad g y {| heap := h; self := MomentumOptimizer s m acc |}).1,
     {| heap := heap (apply_grad g y {| heap := h; self := MomentumOptimizer s m acc |}).2;
        self := NesterovMomentumOptimizer s m
                  (accumulation
                     (self (apply_grad g y
                              {| heap := h; self := MomentumOptimizer s m acc |}).2)) |}).
Proof.
  unfold apply_grad, MomentumOptimizer_apply_grad.
  destruct acc as [a|]; exec_any; done.
Qed.

Lemma apply_grad_sets_accumulation s m acc g y (h : store F) r w' :
  apply_grad g y {| heap := h; self := NesterovMomentumOptimizer s m acc |} = (Ok r, w') ->
  is_Some (accumulation (self w')).
Proof.
  unfold apply_grad, MomentumOptimizer_apply_grad.
  destruct acc as [a|]; exec_any; intros [= <- <-]; by eexists.
Qed.

(** C4: [compute_grad] of a [NesterovMomentumOptimizer] calls the function
    computing the gradient (the caller's [grad_fn], else the engine) at [x]
    itself while [accumulation] is unset, and at a new array with the value
    [x - momentum * accumulation] once it is set, which it is after every
    call that returned.  The update it then applies is the one of
    [MomentumOptimizer]. *)
Theorem Nesterov_gradient_point f x gf (w : world F) s m acc :
  self w = NesterovMomentumOptimizer s m acc ->
  (acc = None ->
     compute_grad autograd f x gf w = call (the_grad autograd f gf x) w) /\
  (forall a va vx,
     acc = Some a ->
     read (heap w) (Arr a) = Ok va ->
     read (heap w) (Arr x) = Ok vx ->
     match Spec.lookahead m (Some va) vx with
     | Ok v =>
         exists shifted_x w',
           read (heap w') (Arr shifted_x) = Ok v /\
           self w' = self w /\
           (forall l d, heap w !! l = Some d -> heap w' !! l = Some d) /\
           compute_grad autograd f x gf w =
             call (the_grad autograd f gf shifted_x) w'
     | Raise e => (compute_grad autograd f x gf w).1 = Raise e
     end) /\
  (forall g y,
     apply_grad g y w =
       ((apply_grad g y {| heap := heap w; self := MomentumOptimizer s m acc |}).1,
        {| heap := heap (apply_grad g y
                           {| heap := heap w; self := MomentumOptimizer s m acc |}).2;
           self := NesterovMomentumOptimizer s m
                     (accumulation
                        (self (apply_grad g y
                                 {| heap := heap w;
                                    self := MomentumOptimizer s m acc |}).2)) |})) /\
  (forall g y r w', apply_grad g y w = (Ok r, w') -> is_Some (accumulation (self w'))).
Proof.
  intros Hcls. destruct w as [h o]. cbn [heap self] in *. subst o.
  split; [|split; [|split]].
  - intros ->. unfold compute_grad, NesterovMomentumOptimizer_compute_grad.
    exec. by destruct gf.
  - intros a va vx -> Ha Hx.
    unfold compute_grad, NesterovMomentumOptimizer_compute_grad, Spec.lookahead,
      vmul, vsub.
    unfold mbind, result_bind, rbind.
    destruct (vbinop fmul (scalar m) va) as [vm|e] eqn:Em; [|by exec].
    destruct (vbinop fsub vx vm) as [vs|e] eqn:Es; [|by exec].
    exists {| buf := length (h ++ [vdata vm]); shape := vshape vs |},
           {| heap := (h ++ [vdata vm]) ++ [vdata vs];
              self := NesterovMomentumOptimizer s m (Some a) |}.
    exec. split; [solve_read|]. split; [reflexivity|].
    split; [|by destruct gf].
    intros l d Hd. by do 2 apply lookup_app_l_Some.
  - intros g y. apply apply_grad_Nesterov.
  - intros g y r w'. apply apply_grad_sets_accumulation.
Qed.

End Claims3.

Ltac simpl_full :=
  repeat first
    [ progress unfold vmul, vadd, vsub, vdiv, vsqrt, mbind, result_bind, rbind
    | rewrite vbinop_full_scalar_l
    | rewrite vbinop_full_scalar_r
    | rewrite vbinop_full_full
    | rewrite vmap_full ].

Section ZeroGradient.
Context {objective : Type}.
Variable autograd : objective -> grad_function R.
Local Open Scope R_scope.

Lemma vsub_zeros (vx : value R) (z : R) :
  wf_value vx -> z = 0 -> vbinop fsub vx (full (vshape vx) z) = Ok vx.
Proof.
  intros Hwf ->. rewrite vbinop_full_r by done.
  destruct vx as [s d]. unfold vmap. cbn [vshape vdata]. f_equal. f_equal.
  rewrite <- (list_fmap_id d) at 2. apply list_fmap_ext.
  intros i e _. cbn. lra.
Qed.

(** With an all-zero gradient and no accumulated state, the update of every
    class returns the value of [x]. *)
Lemma zero_gradient_apply_grad (o : optimizer R) g x (w : world R) vx :
  self w = just_constructed o ->
  read (heap w) (Arr g) = Ok (full (vshape vx) 0) ->
  read (heap w) (Arr x) = Ok vx ->
  wf_value vx ->
  final_value (apply_grad g x w) = Ok vx.
Proof.
  intros Hcls Hg Hx Hwf.
  destruct o as [s|s m a|s m a|s a|s dc a|s b1 b2 fm sm n]; cbn in Hcls.
  - destruct (GradientDescentOptimizer_apply_grad_spec s g x w _ vx Hcls Hg Hx)
      as [-> _].
    unfold Spec.gd_update. simpl_full. apply vsub_zeros; [done|]. cbn. lra.
  - pose proof (MomentumOptimizer_apply_grad_spec s m None g x w None _ vx
                  (or_introl Hcls) I Hg Hx) as Hs.
    cbn [Spec.momentum_accumulation] in Hs. revert Hs. simpl_full.
    intros [_ ->]. apply vsub_zeros; [done|]. cbn. lra.
  - pose proof (MomentumOptimizer_apply_grad_spec s m None g x w None _ vx
                  (or_intror Hcls) I Hg Hx) as Hs.
    cbn [Spec.momentum_accumulation] in Hs. revert Hs. simpl_full.
    intros [_ ->]. apply vsub_zeros; [done|]. cbn. lra.
  - pose proof (AdagradOptimizer_apply_grad_spec s None g x w None _ vx
                  Hcls I Hg Hx ltac:(done)) as Hs.
    revert Hs. unfold Spec.adagrad_accumulation, Spec.adaptive_update. simpl_full.
    intros [_ ->]. apply vsub_zeros; [done|]. cbn. lra.
  - pose proof (RMSPropOptimizer_apply_grad_spec s dc None g x w None _ vx
                  Hcls I Hg Hx) as Hs.
    revert Hs. unfold Spec.rmsprop_accumulation, Spec.adaptive_update. simpl_full.
    intros [_ ->]. apply vsub_zeros; [done|]. cbn. lra.
  - pose proof (AdamOptimizer_apply_grad_spec s b1 b2 None None 0 g x w None None
                  _ vx Hcls I I Hg Hx) as [_ Hs].
    revert Hs. unfold Spec.adam_firstmoment, Spec.adam_secondmoment, Spec.adam_update.
    simpl_full. intros [_ ->]. apply vsub_zeros; [done|]. cbn. unfold Rdiv. lra.
Qed.

Lemma zero_gradient_step (o : optimizer R) f x gf (w : world R) g w1 vx :
  self w = just_constructed o ->
  gradient autograd f x gf w = (Ok g, w1) ->
  read (heap w1) (Arr g) = Ok (full (vshape vx) 0) ->
  read (heap w1) (Arr x) = Ok vx ->
  wf_value vx ->
  final_value (step autograd f x gf w) = Ok vx.
Proof.
  intros Hcls Hg Hrg Hrx Hwf.
  destruct (step_apply_grad autograd f x gf w g w1 Hg) as [-> Hs].
  apply (zero_gradient_apply_grad o); [congruence|done..].
Qed.

Lemma sqrt_eps : sqrt (0 + eps) = / 10000.
Proof.
  rewrite eps_R. apply sqrt_lem_1; lra.
Qed.

Lemma Adam_eps : sqrt 0 + eps = / 100000000.
Proof. rewrite eps_R, sqrt_0. lra. Qed.

End ZeroGradient.

(** ** The arrays an update computes from a constant gradient *)

Ltac exec_full_step :=
  first
    [ rewrite vbinop_full_scalar_l
    | rewrite vbinop_full_scalar_r
    | rewrite vbinop_full_full
    | progress unfold vsqrt
    | rewrite vmap_full
    | exec_step ].

Ltac exec_full := repeat exec_full_step.

Section Trace.
Context {F : Type} `{Scalar F}.

Lemma allocated_app (h : store F) l o :
  allocated h {| heap := h ++ l; self := o |} = l.
Proof. unfold allocated. cbn [heap]. apply drop_app_length. Qed.

Lemma GradientDescent_trace s g x (h : store F) sh z vx r :
  read h (Arr g) = Ok (full sh z) ->
  read h (Arr x) = Ok vx ->
  vbinop fsub vx (full sh (fmul s z)) = Ok r ->
  heap (apply_grad g x {| heap := h; self := GradientDescentOptimizer s |}).2 =
    h ++ [vdata (full sh (fmul s z)); vdata r].
Proof.
  intros Hg Hx Hr. unfold apply_grad, GradientDescentOptimizer_apply_grad.
  exec_full. by rewrite <- !app_assoc.
Qed.

Lemma Momentum_trace s m g x (h : store F) o sh z vx r :
  o = MomentumOptimizer s m None \/ o = NesterovMomentumOptimizer s m None ->
  read h (Arr g) = Ok (full sh z) ->
  read h (Arr x) = Ok vx ->
  vbinop fsub vx (full sh (fmul s z)) = Ok r ->
  heap (apply_grad g x {| heap := h; self := o |}).2 =
    h ++ [vdata (full sh (fmul s z)); vdata r].
Proof.
  intros Ho Hg Hx Hr. unfold apply_grad, MomentumOptimizer_apply_grad.
  destruct Ho as [-> | ->]; exec_full; by rewrite <- !app_assoc.
Qed.

Lemma Adagrad_trace s g x (h : store F) sh z vx r :
  read h (Arr g) = Ok (full sh z) ->
  read h (Arr x) = Ok vx ->
  vbinop fsub vx
    (full sh (fmul (fdiv s (fsqrt (fadd (fmul z z) eps))) z)) = Ok r ->
  heap (apply_grad g x {| heap := h; self := AdagradOptimizer s None |}).2 =
    h ++ [vdata (full sh (fmul z z));
          vdata (full sh (fadd (fmul z z) eps));
          vdata (full sh (fsqrt (fadd (fmul z z) eps)));
          vdata (full sh (fdiv s (fsqrt (fadd (fmul z z) eps))));
          vdata (full sh (fmul (fdiv s (fsqrt (fadd (fmul z z) eps))) z));
          vdata r].
Proof.
  intros Hg Hx Hr. unfold apply_grad, AdagradOptimizer_apply_grad.
  exec_full. by rewrite <- !app_assoc.
Qed.

Lemma RMSProp_trace s dc g x (h : store F) sh z vx r :
  read h (Arr g) = Ok (full sh z) ->
  read h (Arr x) = Ok vx ->
  vbinop fsub vx
    (full sh (fmul (fdiv s (fsqrt (fadd (fmul (fsub one dc) (fmul z z)) eps)))
                z)) = Ok r ->
  heap (apply_grad g x {| heap := h; self := RMSPropOptimizer s dc None |}).2 =
    h ++ [vdata (full sh (fmul z z));
          vdata (full sh (fmul (fsub one dc) (fmul z z)));
          vdata (full sh (fadd (fmul (fsub one dc) (fmul z z)) eps));
          vdata (full sh (fsqrt (fadd (fmul (fsub one dc) (fmul z z)) eps)));
          vdata (full sh (fdiv s (fsqrt (fadd (fmul (fsub one dc) (fmul z z))
                                           eps))));
          vdata (full sh (fmul (fdiv s (fsqrt (fadd (fmul (fsub one dc)
                                                       (fmul z z)) eps))) z));
          vdata r].
Proof.
  intros Hg Hx Hr. unfold apply_grad, RMSPropOptimizer_apply_grad.
  exec_full. by rewrite <- !app_assoc.
Qed.

Lemma Adam_trace s b1 b2 n g x (h : store F) sh z vx r :
  read h (Arr g) = Ok (full sh z) ->
  read h (Arr x) = Ok vx ->
  vbinop fsub vx
    (full sh (fdiv (fmul (adapted_stepsize s b1 b2 (n + 1)) z)
                (fadd (fsqrt (fmul z z)) eps))) = Ok r ->
  heap (apply_grad g x
          {| heap := h; self := AdamOptimizer s b1 b2 None None n |}).2 =
    h ++ [vdata (full sh (fmul z z));
          vdata (full sh (fmul (adapted_stepsize s b1 b2 (n + 1)) z));
          vdata (full sh (fsqrt (fmul z z)));
          vdata (full sh (fadd (fsqrt (fmul z z)) eps));
          vdata (full sh (fdiv (fmul (adapted_stepsize s b1 b2 (n + 1)) z)
                            (fadd (fsqrt (fmul z z)) eps)));
          vdata r].
Proof.
  intros Hg Hx Hr. unfold apply_grad, AdamOptimizer_apply_grad.
  exec_full. by rewrite <- !app_assoc.
Qed.

End Trace.



Section Adagrad.
Context {F : Type} `{Scalar F}.
Context {objective : Type}.
Variable autograd : objective -> grad_function F.

Lemma sum_squares_snoc (a : value F) gs g :
  Spec.sum_squares a (gs ++ [g]) =
    (b ← Spec.sum_squares a gs; gg ← vmul g g; vadd b gg).
Proof.
  revert a. induction gs as [|g0 gs IH]; intros a; cbn [app Spec.sum_squares].
  - unfold mbind, result_bind, rbind. destruct (vmul g g) as [gg|]; [|done].
    by destruct (vadd a gg).
  - unfold mbind, result_bind, rbind in *. destruct (vmul g0 g0) as [gg|]; [|done].
    destruct (vadd a gg) as [b|]; [|done]. apply IH.
Qed.

Lemma read_same_buffer (h h' : store F) a v :
  h' !! buf a = h !! buf a -> read h (Arr a) = Ok v -> read h' (Arr a) = Ok v.
Proof. unfold read. by intros ->. Qed.

Lemma Adagrad_step_spec f x gf (w : world F) s acc vacc g w1 vg vx :
  self w = AdagradOptimizer s acc ->
  gradient autograd f x gf w = (Ok g, w1) ->
  holds (heap w1) acc vacc ->
  read (heap w1) (Arr g) = Ok vg ->
  read (heap w1) (Arr x) = Ok vx ->
  (forall a, acc = Some a -> buf a <> buf g /\ buf a <> buf x) ->
  match Spec.adagrad_accumulation vacc vg with
  | Ok v =>
      (exists a, self (step autograd f x gf w).2 = AdagradOptimizer s (Some a) /\
                 read (heap (step autograd f x gf w).2) (Arr a) = Ok v) /\
      final_value (step autograd f x gf w) = Spec.adaptive_update s v vx vg
  | Raise e =>
      (step autograd f x gf w).1 = Raise e /\
      self (step autograd f x gf w).2 = self w
  end.
Proof.
  intros Hcls Hg Hacc Hrg Hrx Hown.
  destruct (step_apply_grad autograd f x gf w g w1 Hg) as [Hstep Hs].
  rewrite Hstep. rewrite <- Hs in *.
  pose proof (AdagradOptimizer_apply_grad_spec s acc g x w1 vacc vg vx
                Hcls Hacc Hrg Hrx Hown) as Hspec.
  destruct (Spec.adagrad_accumulation vacc vg) as [v|e]; [|done].
  destruct Hspec as [(a & Ha & Hra) Hv]. split; [|done].
  exists a. split; [|done]. by rewrite Ha, Hcls.
Qed.

(** After calls of [step] that returned, [accumulation] of an
    [AdagradOptimizer] is the sum of the squares of the gradients seen. *)
Lemma Adagrad_calls s (w : world F) gs w' :
  self w = AdagradOptimizer_init s ->
  calls autograd w gs w' ->
  match sum_of_squares gs with
  | None => self w' = AdagradOptimizer s None
  | Some total =>
      exists a v, self w' = AdagradOptimizer s (Some a) /\
                  read (heap w') (Arr a) = Ok v /\ total = Ok v
  end.
Proof.
  intros Hinit Hcalls. induction Hcalls as
    [w|w gs w1 f x gf g w2 vg vx r w3 Hc IH Hg Hrg Hrx Hown Hstep
      |w gs w1 w2 Hc IH Hself Hown].
  - exact Hinit.
  - specialize (IH Hinit).
    destruct gs as [|g0 gs]; cbn [sum_of_squares app] in *.
    + pose proof (Adagrad_step_spec f x gf w1 s None None g w2 vg vx
                    IH Hg I Hrg Hrx ltac:(done)) as Hspec.
      unfold Spec.adagrad_accumulation in Hspec. cbn [Spec.sum_squares].
      unfold mbind, result_bind, rbind in *. rewrite Hstep in Hspec.
      destruct (vmul vg vg) as [gg|e]; [|by destruct Hspec].
      destruct Hspec as [(a & Ha & Hra) _]. by exists a, gg.
    + destruct IH as (a & v & Hself & Hra & Htot).
      destruct (Hown a) as (Hsame & Hag & Hax); [by rewrite Hself|].
      pose proof (Adagrad_step_spec f x gf w1 s (Some a) (Some v) g w2 vg vx
                    Hself Hg (read_same_buffer _ _ _ _ Hsame Hra) Hrg Hrx) as Hspec.
      unfold Spec.adagrad_accumulation in Hspec.
      unfold mbind, result_bind, rbind in *. rewrite Hstep in Hspec.
      destruct (vmul g0 g0) as [gg0|e0]; [|done].
      rewrite sum_squares_snoc. unfold mbind, result_bind, rbind. rewrite Htot.
      destruct (vmul vg vg) as [gg|e].
      2: { destruct Hspec as [He _]; [by intros ? [= <-]|]. done. }
      destruct (viadd v gg) as [v'|e] eqn:Ev.
      2: { destruct Hspec as [He _]; [by intros ? [= <-]|]. done. }
      destruct Hspec as [(a' & Ha' & Hra') _]; [by intros ? [= <-]|].
      exists a', v'. split; [done|]. split; [done|]. by apply viadd_vadd.
  - specialize (IH Hinit).
    destruct (sum_of_squares gs) as [total|]; [|congruence].
    destruct IH as (a & v & Hs & Hra & Htot). exists a, v.
    split; [congruence|]. split; [|done].
    eapply read_same_buffer; [|done]. apply Hown. by rewrite Hs.
Qed.

End Adagrad.

Section RealClaims.
Local Open Scope R_scope.
Local Abbreviation autograd_R := (@Example.autograd R R_Scalar).
Local Abbreviation autograd_flat_R := (@Example.autograd_flat R R_Scalar).

Lemma eps_decimal : eps (F:=R) = 1e-8.
Proof. rewrite eps_R. lra. Qed.

Lemma tenth_decimal : of_decimal (F:=R) 1 (-1) = 0.1.
Proof. cbn [of_decimal R_Scalar]. cbv [powerRZ]. simpl. lra. Qed.

Lemma adapted_stepsize_R (s b1 b2 : R) (n : Z) :
  adapted_stepsize s b1 b2 n =
    s * sqrt (1 - powerRZ b2 n) / (1 - powerRZ b1 n).
Proof. unfold adapted_stepsize. rewrite one_R. reflexivity. Qed.

Lemma Adagrad_example_bound :
  Rabs ((1 - (0.1 / sqrt (4 + 1e-8)) * 2) - 0.9) < 1e-9.
Proof.
  assert (H1 : 2 < sqrt (4 + 1e-8)).
  { rewrite <- (sqrt_square 2) at 1 by lra. apply sqrt_lt_1; lra. }
  assert (H2 : sqrt (4 + 1e-8) < 2 + 1e-8).
  { rewrite <- (sqrt_square (2 + 1e-8)) by lra. apply sqrt_lt_1; nra. }
  set (s := sqrt (4 + 1e-8)) in *.
  assert (Hq : 0.1 / s * s = 0.1) by (field; lra).
  set (q := 0.1 / s) in *.
  apply Rabs_def1; nra.
Qed.

(** The first Adagrad step of the specification's example: [f(x) = x^2]
    from [x = 1.0] with [stepsize = 0.1]. *)
Lemma Adagrad_example_step :
  let p := step autograd_R Example.Square Example.x0 None
             {| heap := Example.h0; self := AdagradOptimizer_init 0.1 |} in
  (exists a, self p.2 = AdagradOptimizer 0.1 (Some a) /\
             read (heap p.2) (Arr a) = Ok (scalar 4)) /\
  final_value p = Ok (scalar (1 - (0.1 / sqrt (4 + 1e-8)) * 2)).
Proof.
  intros p.
  pose proof (Adagrad_step_spec autograd_R Example.Square Example.x0 None
                {| heap := Example.h0; self := AdagradOptimizer_init 0.1 |}
                0.1 None None {| buf := 1; shape := [] |}
                {| heap := [[1]; [2 * 1]]; self := AdagradOptimizer_init 0.1 |}
                (scalar (2 * 1)) (scalar 1)
                ltac:(run_example) ltac:(run_example) I ltac:(run_example) ltac:(run_example)
                ltac:(done)) as Hspec.
  fold p in Hspec.
  change (Spec.adagrad_accumulation None (scalar (2 * 1)))
    with (Ok (A:=value R) (scalar (2 * 1 * (2 * 1)))) in Hspec.
  destruct Hspec as [(a & Ha & Hra) Hv]. split.
  - exists a. split; [done|]. rewrite Hra. do 2 f_equal. unfold scalar. do 2 f_equal. lra.
  - rewrite Hv.
    change (Spec.adaptive_update 0.1 (scalar (2 * 1 * (2 * 1))) (scalar 1) (scalar (2 * 1)))
      with (Ok (A:=value R)
              (scalar (1 - 0.1 / sqrt (2 * 1 * (2 * 1) + eps) * (2 * 1)))).
    rewrite eps_decimal. do 2 f_equal.
    replace (2 * 1 * (2 * 1) + 1e-8) with (4 + 1e-8) by lra. lra.
Qed.

End RealClaims.

(** ** The examples in binary64 *)

Section Binary64.
Local Abbreviation autograd_b64 := (@Example.autograd float binary64_Scalar).

Lemma eps_binary64 : eps (F:=float) = 1e-8%float.
Proof. vm_compute. reflexivity. Qed.

(** Powers as Python prints them: [0.99 ** 3], [0.9 ** 10] and
    [0.99 ** -2]. *)
Lemma float_pow_examples :
  float_pow 0.99 3 = 0.970299%float /\
  float_pow 0.9 10 = 0.3486784401000001%float /\
  float_pow 0.99 (-2) = 1.0203040506070808%float /\
  float_pow 0.9 1 = 0.9%float /\
  float_pow 0.9 0 = 1%float.
Proof. repeat apply conj; vm_compute; reflexivity. Qed.

(** [1.0 - 0.1 * 2.0] on a [GradientDescentOptimizer]. *)
Lemma GradientDescent_example_binary64 :
  final_value (step autograd_b64 Example.Square Example.x0 None
                 {| heap := Example.h0_binary64;
                    self := GradientDescentOptimizer_init 0.1%float |}) =
    Ok (scalar 0.8%float).
Proof. vm_compute. reflexivity. Qed.

(** [1.0 - (0.1 / sqrt(4.0 + 1e-8)) * 2.0] on an [AdagradOptimizer]. *)
Lemma Adagrad_example_binary64 :
  final_value (step autograd_b64 Example.Square Example.x0 None
                 {| heap := Example.h0_binary64;
                    self := AdagradOptimizer_init 0.1%float |}) =
    Ok (scalar 0.9000000001249999%float).
Proof. vm_compute. reflexivity. Qed.

(** A zero gradient on the three adaptive classes, newly constructed. *)
Lemma zero_gradient_binary64 :
  final_value (step autograd_b64 Example.Constant Example.x0 None
                 {| heap := Example.h0_binary64;
                    self := AdagradOptimizer_init 0.1%float |}) =
    Ok (scalar 1%float) /\
  final_value (step autograd_b64 Example.Constant Example.x0 None
                 {| heap := Example.h0_binary64;
                    self := RMSPropOptimizer_init 0.1%float 0.9%float |}) =
    Ok (scalar 1%float) /\
  final_value (step autograd_b64 Example.Constant Example.x0 None
                 {| heap := Example.h0_binary64;
                    self := AdamOptimizer_init 0.01%float 0.9%float 0.99%float |}) =
    Ok (scalar 1%float).
Proof. repeat apply conj; vm_compute; reflexivity. Qed.


(** The arrays these calls allocate, the gradient first: the divisor of
    Adagrad is [sqrt(0 + 1e-8) = 1e-4] and the one of Adam is
    [sqrt(0) + 1e-8 = 1e-8], in binary64 too. *)
Lemma zero_gradient_trace_binary64 :
  allocated Example.h0_binary64
    (step autograd_b64 Example.Constant Example.x0 None
       {| heap := Example.h0_binary64;
          self := AdagradOptimizer_init 0.1%float |}).2 =
    [[0]; [0]; [1e-8]; [1e-4]; [1000]; [0]; [1]]%float /\
  allocated Example.h0_binary64
    (step autograd_b64 Example.Constant Example.x0 None
       {| heap := Example.h0_binary64;
          self := AdamOptimizer_init 0.01%float 0.9%float 0.99%float |}).2 =
    [[0]; [0]; [0]; [0]; [1e-8]; [0]; [1]]%float.
Proof. repeat apply conj; vm_compute; reflexivity. Qed.

(** With [stepsize = 1e305] the factor [stepsize / sqrt(0 + 1e-8)] of
    Adagrad and RMSProp is infinite in binary64, and its product with the
    zero gradient is not a number. *)
Lemma zero_gradient_overflow_binary64 :
  allocated Example.h0_binary64
    (step autograd_b64 Example.Constant Example.x0 None
       {| heap := Example.h0_binary64;
          self := AdagradOptimizer_init 1e305%float |}).2 =
    [[0]; [0]; [1e-8]; [1e-4]; [infinity]; [nan]; [nan]]%float /\
  final_value (step autograd_b64 Example.Constant Example.x0 None
                 {| heap := Example.h0_binary64;
                    self := AdagradOptimizer_init 1e305%float |}) =
    Ok (scalar nan) /\
  final_value (step autograd_b64 Example.Constant Example.x0 None
                 {| heap := Example.h0_binary64;
                    self := RMSPropOptimizer_init 1e305%float 0.9%float |}) =
    Ok (scalar nan) /\
  final_value (step autograd_b64 Example.Constant Example.x0 None
                 {| heap := Example.h0_binary64;
                    self := AdamOptimizer_init 1e305%float 0.9%float 0.99%float |}) =
    Ok (scalar 1%float).
Proof. repeat apply conj; vm_compute; reflexivity. Qed.

End Binary64.

(** ** The claims that need the laws of arithmetic, on real numbers *)

Section RealTheorems.
Context {objective : Type}.
Variable autograd : objective -> grad_function R.
Local Open Scope R_scope.

Lemma sqrt_eps_decimal : sqrt (0 + eps) = 1e-4.
Proof. rewrite sqrt_eps. lra. Qed.

Lemma Adam_eps_decimal : sqrt 0 + eps = 1e-8.
Proof. rewrite Adam_eps. lra. Qed.

(** The elements of an array that is constant. *)
Ltac constant_array :=
  unfold full; cbn [vdata]; f_equal;
  cbn [fadd fsub fmul fdiv fsqrt R_Scalar];
  rewrite ?one_R, ?Rmult_0_r;
  rewrite ?sqrt_eps_decimal, ?Adam_eps_decimal;
  rewrite ?eps_decimal, ?sqrt_0; unfold Rdiv; rewrite ?Rmult_0_l; try lra.

(** C1, as amended: in exact real arithmetic, with a gradient that is
    zero everywhere and no accumulated state, [step] returns the value of
    [x] on every class, the adaptive ones included.  The arrays the update
    allocates show why.  [GradientDescentOptimizer], [MomentumOptimizer]
    and [NesterovMomentumOptimizer] compute [stepsize * 0] and subtract
    it.  [AdagradOptimizer] computes the accumulation [0 * 0], then
    [accumulation + 1e-8], the divisor [sqrt(0 + 1e-8) = 1e-4], the factor
    [stepsize / 1e-4] and its product with the gradient, which is zero;
    [RMSPropOptimizer] the same after [(1 - decay) * (0 * 0)].
    [AdamOptimizer] computes the second moment [0 * 0], the numerator
    [adapted_stepsize * 0], [sqrt(0)], the divisor [sqrt(0) + 1e-8 = 1e-8]
    and the quotient, which is zero.  In binary64 the arrays are the same
    for the stepsizes of the examples, but not for every stepsize: with
    [stepsize = 1e305] the factor [stepsize / 1e-4] is infinite, its
    product with the zero gradient is not a number, and Adagrad and
    RMSProp return that, while Adam returns [x]. *)
Theorem zero_gradient_leaves_x :
  (forall (o : optimizer R) f x gf (w : world R) g w1 vx,
     self w = just_constructed o ->
     gradient autograd f x gf w = (Ok g, w1) ->
     read (heap w1) (Arr g) = Ok (full (vshape vx) 0) ->
     read (heap w1) (Arr x) = Ok vx ->
     wf_value vx ->
     final_value (step autograd f x gf w) = Ok vx /\
     allocated (heap w1) (step autograd f x gf w).2 =
       let all c := replicate (size_of (vshape vx)) c in
       match o with
       | GradientDescentOptimizer _ | MomentumOptimizer _ _ _
       | NesterovMomentumOptimizer _ _ _ =>
           [all 0; vdata vx]
       | AdagradOptimizer s _ =>
           [all 0; all 1e-8; all 1e-4; all (s / 1e-4); all 0; vdata vx]
       | RMSPropOptimizer s _ _ =>
           [all 0; all 0; all 1e-8; all 1e-4; all (s / 1e-4); all 0; vdata vx]
       | AdamOptimizer _ _ _ _ _ _ =>
           [all 0; all 0; all 0; all 1e-8; all 0; vdata vx]
       end) /\
  (allocated Example.h0_binary64
     (step (@Example.autograd float binary64_Scalar) Example.Constant
        Example.x0 None
        {| heap := Example.h0_binary64;
           self := AdagradOptimizer_init 0.1%float |}).2 =
     [[0]; [0]; [1e-8]; [1e-4]; [1000]; [0]; [1]]%float /\
   allocated Example.h0_binary64
     (step (@Example.autograd float binary64_Scalar) Example.Constant
        Example.x0 None
        {| heap := Example.h0_binary64;
           self := AdamOptimizer_init 0.01%float 0.9%float 0.99%float |}).2 =
     [[0]; [0]; [0]; [0]; [1e-8]; [0]; [1]]%float) /\
  (allocated Example.h0_binary64
     (step (@Example.autograd float binary64_Scalar) Example.Constant
        Example.x0 None
        {| heap := Example.h0_binary64;
           self := AdagradOptimizer_init 1e305%float |}).2 =
     [[0]; [0]; [1e-8]; [1e-4]; [infinity]; [nan]; [nan]]%float /\
   final_value (step (@Example.autograd float binary64_Scalar) Example.Constant
                  Example.x0 None
                  {| heap := Example.h0_binary64;
                     self := AdagradOptimizer_init 1e305%float |}) =
     Ok (scalar nan) /\
   final_value (step (@Example.autograd float binary64_Scalar) Example.Constant
                  Example.x0 None
                  {| heap := Example.h0_binary64;
                     self := RMSPropOptimizer_init 1e305%float 0.9%float |}) =
     Ok (scalar nan) /\
   final_value (step (@Example.autograd float binary64_Scalar) Example.Constant
                  Example.x0 None
                  {| heap := Example.h0_binary64;
                     self := AdamOptimizer_init 1e305%float 0.9%float 0.99%float |}) =
     Ok (scalar 1%float)).
Proof.
  split; [|split; [apply zero_gradient_trace_binary64
                  |apply zero_gradient_overflow_binary64]].
  intros o f x gf w g w1 vx Hcls Hg Hrg Hrx Hwf.
  split; [by eapply zero_gradient_step|].
  destruct (step_apply_grad autograd f x gf w g w1 Hg) as [-> Hs].
  rewrite <- Hs in Hcls. destruct w1 as [h1 o1]. cbn [heap self] in *. subst o1.
  unfold allocated.
  destruct o as [s|s m a|s m a|s a|s dc a|s b1 b2 fm sm n];
    cbn [just_constructed]; cbv zeta;
    unfold GradientDescentOptimizer_init, MomentumOptimizer_init,
      NesterovMomentumOptimizer_init, AdagradOptimizer_init,
      RMSPropOptimizer_init, AdamOptimizer_init.
  - erewrite GradientDescent_trace; [|done|done|apply vsub_zeros; [done|cbn; lra]].
    rewrite drop_app_length. repeat (apply (f_equal2 cons); [try by constant_array|]);
      try constant_array; done.
  - erewrite Momentum_trace; [|by left|done|done|apply vsub_zeros; [done|cbn; lra]].
    rewrite drop_app_length. repeat (apply (f_equal2 cons); [try by constant_array|]);
      try constant_array; done.
  - erewrite Momentum_trace; [|by right|done|done|apply vsub_zeros; [done|cbn; lra]].
    rewrite drop_app_length. repeat (apply (f_equal2 cons); [try by constant_array|]);
      try constant_array; done.
  - erewrite Adagrad_trace; [|done|done|apply vsub_zeros; [done|cbn; lra]].
    rewrite drop_app_length. repeat (apply (f_equal2 cons); [try by constant_array|]);
      try constant_array; done.
  - erewrite RMSProp_trace; [|done|done|apply vsub_zeros; [done|cbn; lra]].
    rewrite drop_app_length. repeat (apply (f_equal2 cons); [try by constant_array|]);
      try constant_array; done.
  - erewrite Adam_trace;
      [|done|done|apply vsub_zeros; [done|cbn; unfold Rdiv; lra]].
    rewrite drop_app_length. repeat (apply (f_equal2 cons); [try by constant_array|]);
      try constant_array; done.
Qed.

(** C3: every [step] of an [AdamOptimizer] adds 1 to [t], which
    [__init__] sets to 0; it sets [firstmoment] and [secondmoment] by
    their recurrences and returns
    [x - adapted_stepsize * firstmoment / (sqrt(secondmoment) + 1e-8)] with
    [adapted_stepsize = stepsize * sqrt(1 - beta2^t) / (1 - beta1^t)] at the
    new [t]; at [t = 1] that is [stepsize * sqrt(1 - beta2) / (1 - beta1)]. *)
Theorem Adam_step f x gf (w : world R) s b1 b2 fm sm n vfm vsm g w1 vg vx :
  self w = AdamOptimizer s b1 b2 fm sm n ->
  gradient autograd f x gf w = (Ok g, w1) ->
  holds (heap w1) fm vfm ->
  holds (heap w1) sm vsm ->
  read (heap w1) (Arr g) = Ok vg ->
  read (heap w1) (Arr x) = Ok vx ->
  t (self (step autograd f x gf w).2) = (n + 1)%Z /\
  match Spec.adam_firstmoment b1 vfm vg with
  | Ok v1 =>
      match Spec.adam_secondmoment b2 vsm vg with
      | Ok v2 =>
          (exists a1 a2,
              self (step autograd f x gf w).2 =
                AdamOptimizer s b1 b2 (Some a1) (Some a2) (n + 1) /\
              read (heap (step autograd f x gf w).2) (Arr a1) = Ok v1 /\
              read (heap (step autograd f x gf w).2) (Arr a2) = Ok v2) /\
          final_value (step autograd f x gf w) =
            Spec.adam_update
              (s * sqrt (1 - powerRZ b2 (n + 1)) / (1 - powerRZ b1 (n + 1)))
              v1 v2 vx
      | Raise e => (step autograd f x gf w).1 = Raise e
      end
  | Raise e => (step autograd f x gf w).1 = Raise e
  end /\
  adapted_stepsize s b1 b2 1 = s * sqrt (1 - b2) / (1 - b1) /\
  t (AdamOptimizer_init s b1 b2) = 0%Z /\
  eps = 1e-8.
Proof.
  intros Hcls Hg Hfm Hsm Hrg Hrx.
  destruct (step_apply_grad autograd f x gf w g w1 Hg) as [Hstep Hs].
  rewrite Hstep. rewrite <- Hs in Hcls.
  destruct (AdamOptimizer_apply_grad_spec s b1 b2 fm sm n g x w1 vfm vsm vg vx
              Hcls Hfm Hsm Hrg Hrx) as [Ht Hspec].
  split; [exact Ht|]. split.
  - destruct (Spec.adam_firstmoment b1 vfm vg) as [v1|e]; [|by destruct Hspec].
    destruct (Spec.adam_secondmoment b2 vsm vg) as [v2|e]; [|by destruct Hspec].
    by rewrite <- adapted_stepsize_R.
  - split; [|split; [done|apply eps_decimal]].
    rewrite adapted_stepsize_R. by rewrite !powerRZ_1.
Qed.

End RealTheorems.

Section RealTheorems2.
Local Open Scope R_scope.
Local Abbreviation autograd_R := (@Example.autograd R R_Scalar).
Local Abbreviation autograd_flat_R := (@Example.autograd_flat R R_Scalar).

(** C6: after [n >= 1] calls of [step] that returned, [accumulation] of an
    [AdagradOptimizer] is the elementwise sum of the squares of the [n]
    gradients seen; a call sets it to [g * g] when it was unset, adds
    [g * g] to it otherwise, and returns
    [x - (stepsize / sqrt(accumulation + 1e-8)) * g].  From [x = 1.0] with
    [f(x) = x^2] and [stepsize = 0.1] one call gives [accumulation = 4.0] and
    [1.0 - (0.1 / sqrt(4.0 + 1e-8)) * 2.0], within [1e-9] of [0.9]; in
    binary64 the call returns [0.9000000001249999]. *)
Theorem Adagrad_accumulates_squares :
  (forall (objective : Type)
          (autograd : objective -> grad_function R)
          s (w : world R) gs w',
     self w = AdagradOptimizer_init s ->
     calls autograd w gs w' ->
     match sum_of_squares gs with
     | None => self w' = AdagradOptimizer s None
     | Some total =>
         exists a v, self w' = AdagradOptimizer s (Some a) /\
                     read (heap w') (Arr a) = Ok v /\ total = Ok v
     end) /\
  (forall (objective : Type)
          (autograd : objective -> grad_function R)
          f x gf (w : world R) s acc vacc g w1 vg vx,
     self w = AdagradOptimizer s acc ->
     gradient autograd f x gf w = (Ok g, w1) ->
     holds (heap w1) acc vacc ->
     read (heap w1) (Arr g) = Ok vg ->
     read (heap w1) (Arr x) = Ok vx ->
     (forall a, acc = Some a -> buf a <> buf g /\ buf a <> buf x) ->
     match Spec.adagrad_accumulation vacc vg with
     | Ok v =>
         (exists a, self (step autograd f x gf w).2 = AdagradOptimizer s (Some a) /\
                    read (heap (step autograd f x gf w).2) (Arr a) = Ok v) /\
         final_value (step autograd f x gf w) = Spec.adaptive_update s v vx vg
     | Raise e =>
         (step autograd f x gf w).1 = Raise e /\
         self (step autograd f x gf w).2 = self w
     end) /\
  ((exists a,
      self (step autograd_R Example.Square Example.x0 None
              {| heap := Example.h0; self := AdagradOptimizer_init 0.1 |}).2 =
        AdagradOptimizer 0.1 (Some a) /\
      read (heap (step autograd_R Example.Square Example.x0 None
                    {| heap := Example.h0; self := AdagradOptimizer_init 0.1 |}).2)
           (Arr a) = Ok (scalar 4)) /\
   final_value (step autograd_R Example.Square Example.x0 None
                  {| heap := Example.h0; self := AdagradOptimizer_init 0.1 |}) =
     Ok (scalar (1 - (0.1 / sqrt (4 + 1e-8)) * 2)) /\
   Rabs ((1 - (0.1 / sqrt (4 + 1e-8)) * 2) - 0.9) < 1e-9 /\
   eps = 1e-8 /\
   final_value (step (@Example.autograd float binary64_Scalar) Example.Square
                  Example.x0 None
                  {| heap := Example.h0_binary64;
                     self := AdagradOptimizer_init 0.1%float |}) =
     Ok (scalar 0.9000000001249999%float)).
Proof.
  split; [|split].
  - intros objective autograd s w gs w'. apply Adagrad_calls.
  - intros objective autograd f x gf w s acc vacc g w1 vg vx.
    apply Adagrad_step_spec.
  - destruct Adagrad_example_step as [H1 H2].
    split; [exact H1|]. split; [exact H2|].
    split; [apply Adagrad_example_bound|].
    split; [apply eps_decimal|apply Adagrad_example_binary64].
Qed.

(** C1, the claim as stated fails: on this zero gradient (the objective is
    constant) a newly constructed [AdagradOptimizer] returns the value of
    [x], as the plain and the momentum classes do, over the reals and in
    binary64; and the denominator of Adam, [sqrt(0) + 1e-8], is not
    [sqrt(0 + 1e-8)]. *)
Lemma Adagrad_zero_gradient_keeps_x :
  read (heap (gradient autograd_R Example.Constant Example.x0 None
                {| heap := Example.h0; self := AdagradOptimizer_init 0.1 |}).2)
       (Arr {| buf := 1; shape := [] |}) = Ok (scalar 0) /\
  read Example.h0 (Arr Example.x0) = Ok (scalar 1) /\
  final_value (step autograd_R Example.Constant Example.x0 None
                 {| heap := Example.h0; self := AdagradOptimizer_init 0.1 |}) =
    Ok (scalar 1) /\
  final_value (step (@Example.autograd float binary64_Scalar) Example.Constant
                 Example.x0 None
                 {| heap := Example.h0_binary64;
                    self := AdagradOptimizer_init 0.1%float |}) =
    Ok (scalar 1%float) /\
  fadd (fsqrt 0) eps <> fsqrt (fadd 0 eps).
Proof.
  split; [run_example|]. split; [run_example|]. split; [|split].
  - apply (zero_gradient_step autograd_R (AdagradOptimizer 0.1 None)
             Example.Constant Example.x0 None _ {| buf := 1; shape := [] |}
             {| heap := [[1]; [0]]; self := AdagradOptimizer_init 0.1 |} (scalar 1));
      run_example.
  - apply zero_gradient_binary64.
  - cbn [fsqrt fadd R_Scalar]. rewrite sqrt_eps, Adam_eps. lra.
Qed.

End RealTheorems2.

(** ** Two more facts *)

Section Extras.
Local Open Scope R_scope.
Local Abbreviation autograd_R := (@Example.autograd R R_Scalar).

(** X1: the first step of plain gradient descent on [f(x) = x^2] from
    [x = 1.0] with [stepsize = 0.1] returns [1.0 - 0.1 * 2.0 = 0.8], over
    the reals and in binary64. *)
Theorem GradientDescent_example :
  final_value (step autograd_R Example.Square Example.x0 None
                 {| heap := Example.h0;
                    self := GradientDescentOptimizer_init 0.1 |}) =
    Ok (scalar (1 - 0.1 * (2 * 1))) /\
  1 - 0.1 * (2 * 1) = 0.8 /\
  final_value (step (@Example.autograd float binary64_Scalar) Example.Square
                 Example.x0 None
                 {| heap := Example.h0_binary64;
                    self := GradientDescentOptimizer_init 0.1%float |}) =
    Ok (scalar 0.8%float).
Proof.
  split; [run_example|]. split; [lra|apply GradientDescent_example_binary64].
Qed.

End Extras.

Section Extras2.
Context {F : Type} `{Scalar F}.

(** X2: on its first call [AdamOptimizer.apply_grad] keeps the gradient array
    itself as [firstmoment], without a copy: the attribute shares its
    buffer with the array the caller's function returned. *)
Theorem Adam_firstmoment_is_the_gradient_array s b1 b2 sm n g x (h : store F) :
  firstmoment
    (self (apply_grad g x
             {| heap := h; self := AdamOptimizer s b1 b2 None sm n |}).2) = Some g.
Proof.
  unfold apply_grad, AdamOptimizer_apply_grad.
  destruct sm as [a|]; exec_any; done.
Qed.

End Extras2.

(** * Further properties of the optimizers *)

(** ** The class and the hyperparameters never change *)

Section KeepsClass.
Context {F : Type} `{Scalar F}.
Local Open Scope prog_scope.

Lemma keeps_class_bind {A B} (m : M F A) (k : A -> M F B) :
  keeps_class m -> (forall a, keeps_class (k a)) -> keeps_class (bind m k).
Proof.
  intros Hm Hk w. unfold bind. specialize (Hm w).
  destruct (m w) as [[a|e] w1]; cbn [snd] in *; [|done].
  by rewrite Hk.
Qed.

Lemma keeps_class_ret {A} (a : A) : keeps_class (ret (F:=F) a).
Proof. by intros w. Qed.

Lemma keeps_class_raise {A} e : keeps_class (raise (F:=F) (A:=A) e).
Proof. by intros w. Qed.

Lemma keeps_class_get_self : keeps_class (get_self (F:=F)).
Proof. by intros w. Qed.

Lemma keeps_class_the_array a : keeps_class (the_array (F:=F) a).
Proof. by destruct a; intros w. Qed.

Lemma keeps_class_set_self (f : optimizer F -> optimizer F) :
  (forall o, just_constructed (f o) = just_constructed o) ->
  keeps_class (set_self f).
Proof. intros Hf w. apply Hf. Qed.

Lemma keeps_class_with_accumulation a (o : optimizer F) :
  just_constructed (with_accumulation a o) = just_constructed o.
Proof. by destruct o. Qed.

Lemma keeps_class_with_firstmoment a (o : optimizer F) :
  just_constructed (with_firstmoment a o) = just_constructed o.
Proof. by destruct o. Qed.

Lemma keeps_class_with_secondmoment a (o : optimizer F) :
  just_constructed (with_secondmoment a o) = just_constructed o.
Proof. by destruct o. Qed.

Lemma keeps_class_with_t n (o : optimizer F) :
  just_constructed (with_t n o) = just_constructed o.
Proof. by destruct o. Qed.

Lemma np_sqrt_self a (w : world F) : self (np_sqrt a w).2 = self w.
Proof. rewrite np_sqrt_eq. by destruct (read (heap w) (Arr a)). Qed.

Lemma np_iadd_self a b (w : world F) : self (np_iadd a b w).2 = self w.
Proof.
  rewrite np_iadd_eq.
  destruct (read (heap w) (Arr a)); [|done]. destruct (read (heap w) b); [|done].
  destruct (viadd _ _); [|done]. by destruct (shape a).
Qed.

Lemma keeps_class_np_binop op a b : keeps_class (np_binop (F:=F) op a b).
Proof. intros w. by rewrite np_binop_self. Qed.

Lemma keeps_class_np_sqrt a : keeps_class (np_sqrt (F:=F) a).
Proof. intros w. by rewrite np_sqrt_self. Qed.

Lemma keeps_class_np_iadd a b : keeps_class (np_iadd (F:=F) a b).
Proof. intros w. by rewrite np_iadd_self. Qed.

Lemma keeps_class_np_reshape g s : keeps_class (np_reshape (F:=F) g s).
Proof.
  intros w. unfold np_reshape. by destruct (size_of (shape g) =? size_of s).
Qed.

Lemma keeps_class_call {A} (k : store F -> result A * store F) :
  keeps_class (call k).
Proof. intros w. by rewrite call_self. Qed.

End KeepsClass.

Ltac solve_keeps_class :=
  repeat first
    [ apply keeps_class_ret | apply keeps_class_raise
    | apply keeps_class_get_self | apply keeps_class_the_array
    | apply keeps_class_np_binop | apply keeps_class_np_sqrt
    | apply keeps_class_np_iadd | apply keeps_class_np_reshape
    | apply keeps_class_call
    | apply keeps_class_set_self; intros ?;
      first [ apply keeps_class_with_accumulation
            | apply keeps_class_with_firstmoment
            | apply keeps_class_with_secondmoment
            | apply keeps_class_with_t ]
    | apply keeps_class_bind; [|intros ?]
    | match goal with
      | |- keeps_class (match ?o with _ => _ end) => destruct o
      | |- keeps_class (if ?b then _ else _) => destruct b
      end ].

Section KeepsClassOfStep.
Context {F : Type} `{Scalar F}.
Context {objective : Type}.
Variable autograd : objective -> grad_function F.
Local Open Scope prog_scope.

Lemma apply_grad_keeps_class g x : keeps_class (apply_grad (F:=F) g x).
Proof.
  unfold apply_grad, GradientDescentOptimizer_apply_grad,
    MomentumOptimizer_apply_grad, AdagradOptimizer_apply_grad,
    RMSPropOptimizer_apply_grad, AdamOptimizer_apply_grad.
  solve_keeps_class.
Qed.

Lemma compute_grad_keeps_class f x gf :
  keeps_class (compute_grad autograd f x gf).
Proof. intros w. by rewrite compute_grad_self. Qed.

Lemma reset_keeps_class : keeps_class (reset (F:=F)).
Proof.
  unfold reset, MomentumOptimizer_reset, AdagradOptimizer_reset,
    AdamOptimizer_reset.
  solve_keeps_class.
Qed.

Lemma just_constructed_attributes (o o' : optimizer F) :
  just_constructed o' = just_constructed o ->
  stepsize o' = stepsize o /\ momentum o' = momentum o /\
  decay o' = decay o /\ beta1 o' = beta1 o /\ beta2 o' = beta2 o.
Proof. destruct o, o'; cbn; intros [=]; by subst. Qed.

Lemma step_keeps_class f x gf : keeps_class (step autograd f x gf).
Proof.
  unfold step. apply keeps_class_bind; [apply compute_grad_keeps_class|].
  intros g. apply keeps_class_bind; [solve_keeps_class|].
  intros g'. apply apply_grad_keeps_class.
Qed.

(** X3: whatever [step] and [reset] do, and whether they return or
    raise, the optimizer keeps its class and the hyperparameters it was
    constructed with: [stepsize], [momentum], [decay], [beta1] and [beta2]
    are assigned in [__init__] only. *)
Theorem hyperparameters_never_change f x gf (w : world F) :
  (just_constructed (self (step autograd f x gf w).2) = just_constructed (self w) /\
   stepsize (self (step autograd f x gf w).2) = stepsize (self w) /\
   momentum (self (step autograd f x gf w).2) = momentum (self w) /\
   decay (self (step autograd f x gf w).2) = decay (self w) /\
   beta1 (self (step autograd f x gf w).2) = beta1 (self w) /\
   beta2 (self (step autograd f x gf w).2) = beta2 (self w)) /\
  (just_constructed (self (reset w).2) = just_constructed (self w) /\
   stepsize (self (reset w).2) = stepsize (self w) /\
   momentum (self (reset w).2) = momentum (self w) /\
   decay (self (reset w).2) = decay (self w) /\
   beta1 (self (reset w).2) = beta1 (self w) /\
   beta2 (self (reset w).2) = beta2 (self w)).
Proof.
  pose proof (step_keeps_class f x gf) as Hs.
  split.
  - split; [apply Hs|]. apply just_constructed_attributes, Hs.
  - split; [apply reset_keeps_class|].
    apply just_constructed_attributes, reset_keeps_class.
Qed.

End KeepsClassOfStep.

(** ** From unset to set accumulated state *)

Section Active.
Context {F : Type} `{Scalar F}.
Context {objective : Type}.
Variable autograd : objective -> grad_function F.
Local Open Scope prog_scope.

Lemma apply_grad_activates g x (w : world F) r w' :
  apply_grad g x w = (Ok r, w') -> active (self w').
Proof.
  destruct w as [h o]. unfold apply_grad, GradientDescentOptimizer_apply_grad,
    MomentumOptimizer_apply_grad, AdagradOptimizer_apply_grad,
    RMSPropOptimizer_apply_grad, AdamOptimizer_apply_grad.
  destruct o as [s|s m [a|]|s m [a|]|s [a|]|s dc [a|]|s b1 b2 [a1|] [a2|] n];
    exec_any; intros [= <- <-]; cbn; eauto.
Qed.

Lemma apply_grad_stays_active g x (w : world F) :
  active (self w) -> active (self (apply_grad g x w).2).
Proof.
  destruct w as [h o]. unfold apply_grad, GradientDescentOptimizer_apply_grad,
    MomentumOptimizer_apply_grad, AdagradOptimizer_apply_grad,
    RMSPropOptimizer_apply_grad, AdamOptimizer_apply_grad.
  destruct o as [s|s m [a|]|s m [a|]|s [a|]|s dc [a|]|s b1 b2 [a1|] [a2|] n];
    cbn [active self accumulation]; intros Ha;
    try (by apply is_Some_None in Ha);
    try (by apply proj1, is_Some_None in Ha);
    try (by apply proj2, is_Some_None in Ha);
    exec_any; cbn; eauto.
Qed.

(** X4: a call of [step] that returns leaves the accumulated state set
    ([accumulation], or both moments of Adam), and once it is set every
    later call of [step] leaves it set, also one that raises; only [reset]
    unsets it. *)
Theorem step_sets_the_state f x gf (w : world F) :
  (forall r, (step autograd f x gf w).1 = Ok r ->
     active (self (step autograd f x gf w).2)) /\
  (active (self w) -> active (self (step autograd f x gf w).2)) /\
  (has_memory (self w) -> ~ active (self (reset w).2)).
Proof.
  split; [|split].
  - intros r Hr. destruct (step autograd f x gf w) as [r' w'] eqn:E.
    cbn [fst snd] in *. subst r'.
    rewrite step_gradient in E. unfold bind in E.
    destruct (gradient autograd f x gf w) as [[g|e] w1]; [|done].
    by eapply apply_grad_activates.
  - intros Ha. rewrite step_gradient. unfold bind.
    pose proof (gradient_self autograd f x gf w) as Hs.
    destruct (gradient autograd f x gf w) as [[g|e] w1]; cbn [snd] in *.
    + apply apply_grad_stays_active. by rewrite Hs.
    + by rewrite Hs.
  - destruct w as [h o]. destruct o; cbn; try done; intros _ Ha;
      first [by apply is_Some_None in Ha | by apply proj1, is_Some_None in Ha].
Qed.

(** [apply_grad] of an [AdamOptimizer] adds one to [t], whether it
    returns or raises. *)
Lemma Adam_apply_grad_t s b1 b2 fm sm n g x (h : store F) :
  exists fm' sm',
    self (apply_grad g x {| heap := h; self := AdamOptimizer s b1 b2 fm sm n |}).2 =
      AdamOptimizer s b1 b2 fm' sm' (n + 1).
Proof.
  unfold apply_grad, AdamOptimizer_apply_grad.
  destruct fm as [a1|], sm as [a2|]; exec_any; cbn [snd self]; eauto.
Qed.

Lemma Adam_act_t a (w : world F) s b1 b2 fm sm n :
  self w = AdamOptimizer s b1 b2 fm sm n ->
  exists fm' sm',
    self (act autograd a w) =
      AdamOptimizer s b1 b2 fm' sm' (updates autograd [a] w n).
Proof.
  intros Hs. destruct a as [f x gf| |h]; cbn [act updates].
  - rewrite step_gradient. unfold bind.
    pose proof (gradient_self autograd f x gf w) as Hg.
    destruct (gradient autograd f x gf w) as [[g|e] [h1 o1]];
      cbn [fst snd self] in *; rewrite Hs in Hg; subst o1.
    + apply Adam_apply_grad_t.
    + by exists fm, sm.
  - destruct w as [h o]. cbn [self] in Hs. subst o. by exists None, None.
  - by exists fm, sm.
Qed.

(** X5: the attribute [t] of an [AdamOptimizer] counts the calls of
    [apply_grad] since the optimizer was constructed or last reset: every
    call of [step] whose gradient was computed adds one, whether the
    update then returns or raises; a call of [step] whose gradient
    computation raises adds nothing; [reset] sets [t] to 0; and nothing
    the caller does to the arrays changes it. *)
Theorem Adam_t_counts_the_updates l (w : world F) s b1 b2 fm sm n :
  self w = AdamOptimizer s b1 b2 fm sm n ->
  t (self (session autograd l w)) = updates autograd l w n.
Proof.
  revert w fm sm n. induction l as [|a l IH]; intros w fm sm n Hs.
  - unfold session. cbn [foldl updates]. by rewrite Hs.
  - destruct (Adam_act_t a w s b1 b2 fm sm n Hs) as (fm' & sm' & Ha).
    unfold session in *. cbn [foldl updates]. rewrite (IH _ _ _ _ Ha).
    by destruct a.
Qed.

Lemma compute_grad_Nesterov_unset s m f x gf (h : store F) :
  compute_grad autograd f x gf
    {| heap := h; self := NesterovMomentumOptimizer s m None |} =
    call (the_grad autograd f gf x)
      {| heap := h; self := NesterovMomentumOptimizer s m None |}.
Proof.
  unfold compute_grad, NesterovMomentumOptimizer_compute_grad.
  rewrite !bind_get_self. cbn [self accumulation]. by destruct gf.
Qed.

(** X9: the first step of a newly constructed [NesterovMomentumOptimizer]
    is the first step of a [MomentumOptimizer]: it computes the gradient
    at [x] itself, returns the same array and leaves the same store and
    the same [accumulation]. *)
Theorem Nesterov_first_step_is_Momentum s m f x gf (h : store F) :
  step autograd f x gf {| heap := h; self := NesterovMomentumOptimizer_init s m |} =
    ((step autograd f x gf {| heap := h; self := MomentumOptimizer_init s m |}).1,
     {| heap := heap (step autograd f x gf
                        {| heap := h; self := MomentumOptimizer_init s m |}).2;
        self := NesterovMomentumOptimizer s m
                  (accumulation
                     (self (step autograd f x gf
                              {| heap := h;
                                 self := MomentumOptimizer_init s m |}).2)) |}).
Proof.
  unfold NesterovMomentumOptimizer_init, MomentumOptimizer_init.
  rewrite !step_gradient. unfold gradient, bind.
  rewrite compute_grad_Nesterov_unset, compute_grad_base by done.
  rewrite !call_world.
  destruct (the_grad autograd f gf x h) as [[g|e] h1]; cbn [fst snd]; [|done].
  destruct (1 <? length (shape x)).
  - unfold np_reshape. destruct (size_of (shape g) =? size_of (shape x)).
    + unfold ret. apply apply_grad_Nesterov.
    + done.
  - unfold ret. apply apply_grad_Nesterov.
Qed.

End Active.

Section Bypass.
Context {F : Type} `{Scalar F}.
Local Open Scope prog_scope.

(** X11: when the caller passes [grad_fn], [step] never uses the
    differentiation engine nor the objective: the call is the same with any
    engine and any objective. *)
Theorem grad_fn_bypasses_the_engine
    (objective objective' : Type)
    (autograd : objective -> grad_function F)
    (autograd' : objective' -> grad_function F)
    f f' x grad_fn (w : world F) :
  step autograd f x (Some grad_fn) w = step autograd' f' x (Some grad_fn) w.
Proof.
  unfold step, bind, compute_grad, get_self.
  by destruct (self w).
Qed.

End Bypass.

(** ** Shapes *)

Section ShapeRuns.
Context {F : Type} `{Scalar F}.
Local Open Scope prog_scope.

Lemma vbinop_ok_same op (a b : value F) :
  vshape a = vshape b ->
  exists v, vbinop op a b = Ok v /\ vshape v = vshape a.
Proof.
  intros Hs. unfold vbinop. rewrite <- Hs, broadcast_shape_same. by eexists.
Qed.

Lemma vbinop_ok_scalar_l op c (b : value F) :
  exists v, vbinop op (scalar c) b = Ok v /\ vshape v = vshape b.
Proof.
  unfold vbinop. cbn [scalar vshape]. rewrite broadcast_shape_nil_l. by eexists.
Qed.

Lemma vbinop_ok_scalar_r op (a : value F) c :
  exists v, vbinop op a (scalar c) = Ok v /\ vshape v = vshape a.
Proof.
  unfold vbinop. cbn [scalar vshape]. rewrite broadcast_shape_nil_r. by eexists.
Qed.

Lemma read_of_live (h : store F) a :
  buf a < length h -> exists v, read h (Arr a) = Ok v /\ vshape v = shape a.
Proof.
  intros Hl. apply lookup_lt_is_Some in Hl as [d Hd].
  unfold read. rewrite Hd. by eexists.
Qed.

Lemma np_binop_arrays op a b (h : store F) o :
  buf a < length h -> buf b < length h -> shape a = shape b ->
  exists r h',
    np_binop op (Arr a) (Arr b) {| heap := h; self := o |} =
      (Ok r, {| heap := h'; self := o |}) /\
    shape r = shape a /\ buf r < length h' /\ length h <= length h'.
Proof.
  intros Ha Hb Hs. rewrite np_binop_eq. cbn [heap self].
  destruct (read_of_live h a Ha) as (va & -> & Sa).
  destruct (read_of_live h b Hb) as (vb & -> & Sb).
  destruct (vbinop_ok_same op va vb) as (v & -> & Sv); [congruence|].
  eexists _, _. split; [reflexivity|]. cbn [shape buf].
  rewrite length_app. cbn [length]. split; [congruence|lia].
Qed.

Lemma np_binop_scalar_array op c b (h : store F) o :
  buf b < length h ->
  exists r h',
    np_binop op (Sc c) (Arr b) {| heap := h; self := o |} =
      (Ok r, {| heap := h'; self := o |}) /\
    shape r = shape b /\ buf r < length h' /\ length h <= length h'.
Proof.
  intros Hb. rewrite np_binop_eq. cbn [heap self].
  destruct (read_of_live h b Hb) as (vb & -> & Sb). cbn [read].
  destruct (vbinop_ok_scalar_l op c vb) as (v & -> & Sv).
  eexists _, _. split; [reflexivity|]. cbn [shape buf].
  rewrite length_app. cbn [length]. split; [congruence|lia].
Qed.

Lemma np_binop_array_scalar op a c (h : store F) o :
  buf a < length h ->
  exists r h',
    np_binop op (Arr a) (Sc c) {| heap := h; self := o |} =
      (Ok r, {| heap := h'; self := o |}) /\
    shape r = shape a /\ buf r < length h' /\ length h <= length h'.
Proof.
  intros Ha. rewrite np_binop_eq. cbn [heap self].
  destruct (read_of_live h a Ha) as (va & -> & Sa). cbn [read].
  destruct (vbinop_ok_scalar_r op va c) as (v & -> & Sv).
  eexists _, _. split; [reflexivity|]. cbn [shape buf].
  rewrite length_app. cbn [length]. split; [congruence|lia].
Qed.

Lemma np_sqrt_array a (h : store F) o :
  buf a < length h ->
  exists r h',
    np_sqrt a {| heap := h; self := o |} = (Ok r, {| heap := h'; self := o |}) /\
    shape r = shape a /\ buf r < length h' /\ length h <= length h'.
Proof.
  intros Ha. rewrite np_sqrt_eq. cbn [heap self].
  destruct (read_of_live h a Ha) as (va & -> & Sa).
  eexists _, _. split; [reflexivity|]. cbn [shape buf vsqrt vmap vshape].
  rewrite length_app. cbn [length]. split; [congruence|lia].
Qed.

Lemma np_iadd_arrays a b (h : store F) o :
  buf a < length h -> buf b < length h -> shape a = shape b ->
  exists r h',
    np_iadd a (Arr b) {| heap := h; self := o |} =
      (Ok r, {| heap := h'; self := o |}) /\
    shape r = shape a /\ buf r < length h' /\ length h <= length h'.
Proof.
  intros Ha Hb Hs. rewrite np_iadd_eq. cbn [heap self].
  destruct (read_of_live h a Ha) as (va & -> & Sa).
  destruct (read_of_live h b Hb) as (vb & -> & Sb).
  destruct (vbinop_ok_same fadd va vb) as (v & Ev & Sv); [congruence|].
  unfold viadd, vadd, rbind. rewrite Ev, Sa.
  destruct (shape a) eqn:Esh.
  - eexists _, _. split; [reflexivity|]. cbn [shape buf].
    rewrite length_app. cbn [length]. split; [congruence|lia].
  - destruct (decide (vshape v = n :: l)); [|congruence].
    eexists _, _. split; [reflexivity|]. rewrite length_insert. by rewrite Esh.
Qed.

End ShapeRuns.

(** One operation of a run in which every array has the same shape. *)
Ltac shape_step :=
  first
    [ progress unfold bind, ret, raise, lift_result, get_self, set_self, the_array
    | progress cbn [heap self fst snd accumulation firstmoment secondmoment t
                    with_accumulation with_firstmoment with_secondmoment with_t]
    | match goal with
      | |- context [np_binop ?op (Arr ?a) (Arr ?b) {| heap := ?h; self := ?o |}] =>
          let r := fresh "r" in let h' := fresh "h" in
          let E := fresh "E" in let S := fresh "S" in
          let L := fresh "L" in let G := fresh "G" in
          destruct (np_binop_arrays op a b h o) as (r & h' & E & S & L & G);
          [lia | lia | congruence | rewrite E; clear E]
      | |- context [np_binop ?op (Sc ?c) (Arr ?b) {| heap := ?h; self := ?o |}] =>
          let r := fresh "r" in let h' := fresh "h" in
          let E := fresh "E" in let S := fresh "S" in
          let L := fresh "L" in let G := fresh "G" in
          destruct (np_binop_scalar_array op c b h o) as (r & h' & E & S & L & G);
          [lia | rewrite E; clear E]
      | |- context [np_binop ?op (Arr ?a) (Sc ?c) {| heap := ?h; self := ?o |}] =>
          let r := fresh "r" in let h' := fresh "h" in
          let E := fresh "E" in let S := fresh "S" in
          let L := fresh "L" in let G := fresh "G" in
          destruct (np_binop_array_scalar op a c h o) as (r & h' & E & S & L & G);
          [lia | rewrite E; clear E]
      | |- context [np_sqrt ?a {| heap := ?h; self := ?o |}] =>
          let r := fresh "r" in let h' := fresh "h" in
          let E := fresh "E" in let S := fresh "S" in
          let L := fresh "L" in let G := fresh "G" in
          destruct (np_sqrt_array a h o) as (r & h' & E & S & L & G);
          [lia | rewrite E; clear E]
      | |- context [np_iadd ?a (Arr ?b) {| heap := ?h; self := ?o |}] =>
          let r := fresh "r" in let h' := fresh "h" in
          let E := fresh "E" in let S := fresh "S" in
          let L := fresh "L" in let G := fresh "G" in
          destruct (np_iadd_arrays a b h o) as (r & h' & E & S & L & G);
          [lia | lia | congruence | rewrite E; clear E]
      end ].

Section ShapeInvariant.
Context {F : Type} `{Scalar F}.
Context {objective : Type}.
Variable autograd : objective -> grad_function F.
Local Open Scope prog_scope.

Lemma apply_grad_keeps_shapes g x (h : store F) o :
  shape g = shape x ->
  buf g < length h -> buf x < length h ->
  shaped h (shape x) (accumulation o) ->
  shaped h (shape x) (firstmoment o) ->
  shaped h (shape x) (secondmoment o) ->
  exists r w',
    apply_grad g x {| heap := h; self := o |} = (Ok r, w') /\
    shape r = shape x /\ buf r < length (heap w') /\
    shaped (heap w') (shape x) (accumulation (self w')) /\
    shaped (heap w') (shape x) (firstmoment (self w')) /\
    shaped (heap w') (shape x) (secondmoment (self w')).
Proof.
  intros Hs Hg Hx Hacc Hfm Hsm.
  unfold apply_grad, GradientDescentOptimizer_apply_grad,
    MomentumOptimizer_apply_grad, AdagradOptimizer_apply_grad,
    RMSPropOptimizer_apply_grad, AdamOptimizer_apply_grad.
  destruct o as [s|s m [a|]|s m [a|]|s [a|]|s dc [a|]|s b1 b2 [a1|] [a2|] n];
    cbn [shaped accumulation firstmoment secondmoment] in Hacc, Hfm, Hsm;
    repeat match goal with
           | Hc : _ /\ _ |- _ => destruct Hc
           end;
    repeat shape_step;
    (eexists _, _; split; [reflexivity|]);
    cbn [heap self accumulation firstmoment secondmoment shaped];
    repeat split; first [congruence | lia].
Qed.

(** X10: when the gradient has the shape of [x] and the accumulated
    state, if set, has it too, the array [step] returns has the shape of
    [x] and the accumulated state it leaves has the shape of [x]; and
    [step] does return, on every class but [AdamOptimizer] (whose powers
    [beta1**t] and [beta2**t] are outside this statement). *)
Theorem step_keeps_shapes f x gf (w : world F) g w1 :
  gradient autograd f x gf w = (Ok g, w1) ->
  shape g = shape x ->
  buf g < length (heap w1) ->
  buf x < length (heap w1) ->
  shaped (heap w1) (shape x) (accumulation (self w)) ->
  shaped (heap w1) (shape x) (firstmoment (self w)) ->
  shaped (heap w1) (shape x) (secondmoment (self w)) ->
  (forall r,
     (step autograd f x gf w).1 = Ok r ->
     shape r = shape x /\
     buf r < length (heap (step autograd f x gf w).2) /\
     shaped (heap (step autograd f x gf w).2) (shape x)
       (accumulation (self (step autograd f x gf w).2)) /\
     shaped (heap (step autograd f x gf w).2) (shape x)
       (firstmoment (self (step autograd f x gf w).2)) /\
     shaped (heap (step autograd f x gf w).2) (shape x)
       (secondmoment (self (step autograd f x gf w).2))) /\
  ((forall s b1 b2 fm sm n, self w <> AdamOptimizer s b1 b2 fm sm n) ->
   exists r, (step autograd f x gf w).1 = Ok r).
Proof.
  intros Hg Hs Lg Lx Hacc Hfm Hsm.
  destruct (step_apply_grad autograd f x gf w g w1 Hg) as [-> Hself].
  rewrite <- Hself in *. destruct w1 as [h1 o1]. cbn [heap self] in *.
  destruct (apply_grad_keeps_shapes g x h1 o1 Hs Lg Lx Hacc Hfm Hsm)
    as (r & w' & -> & Hr).
  split.
  - by intros r' [= <-].
  - intros _. by exists r.
Qed.

End ShapeInvariant.

(** ** A call that raises after it has updated the state *)

Section NotAtomic.
Context {F : Type} `{Scalar F}.
Context {objective : Type}.
Variable autograd : objective -> grad_function F.
Local Open Scope prog_scope.

Lemma vbinop_raises op (a b : value F) e : vbinop op a b = Raise e -> e = ValueError.
Proof.
  unfold vbinop. destruct (broadcast_shape _ _); [done|]. by intros [= <-].
Qed.

Lemma read_raises (h : store F) o e : read h o = Raise e -> e = SystemError.
Proof.
  destruct o as [c|a]; [done|]. unfold read.
  destruct (h !! buf a); [done|]. by intros [= <-].
Qed.

Lemma final_value_raises (p : result ndarray * world F) :
  final_value p = Raise ValueError -> p.1 = Raise ValueError.
Proof.
  destruct p as [[r|e] w]; unfold final_value.
  - intros Hr. apply read_raises in Hr. discriminate.
  - by intros [= ->].
Qed.

(** X6: [step] of a [MomentumOptimizer] is not all-or-nothing.  When the
    new [accumulation] can be computed but does not broadcast with [x], the
    call raises [ValueError] in the final subtraction, and [accumulation]
    has already been replaced by the new one. *)
Theorem Momentum_raises_after_the_update f x gf (w : world F)
    s m acc vacc g w1 vg vx v e :
  self w = MomentumOptimizer s m acc ->
  gradient autograd f x gf w = (Ok g, w1) ->
  holds (heap w1) acc vacc ->
  read (heap w1) (Arr g) = Ok vg ->
  read (heap w1) (Arr x) = Ok vx ->
  Spec.momentum_accumulation s m vacc vg = Ok v ->
  vsub vx v = Raise e ->
  (step autograd f x gf w).1 = Raise ValueError /\
  exists a, self (step autograd f x gf w).2 = MomentumOptimizer s m (Some a) /\
            read (heap (step autograd f x gf w).2) (Arr a) = Ok v.
Proof.
  intros Hcls Hg Hacc Hrg Hrx Hv He.
  destruct (step_apply_grad autograd f x gf w g w1 Hg) as [-> Hs].
  rewrite <- Hs in Hcls.
  pose proof (MomentumOptimizer_apply_grad_spec s m acc g x w1 vacc vg vx
                (or_introl Hcls) Hacc Hrg Hrx) as Hspec.
  rewrite Hv in Hspec. destruct Hspec as [(a & Ha & Hra) Hf].
  pose proof (vbinop_raises _ _ _ _ He) as ->. rewrite He in Hf.
  split; [by apply final_value_raises|].
  exists a. split; [|done]. by rewrite Ha, Hcls.
Qed.

(** X7: [step] of an [AdamOptimizer] increments [t] before it updates the
    moments.  When the gradient does not broadcast with [firstmoment], the
    call raises and leaves both moments as they were, with [t] one
    ahead. *)
Theorem Adam_raises_after_the_increment f x gf (w : world F)
    s b1 b2 fm sm n vfm vsm g w1 vg vx e :
  self w = AdamOptimizer s b1 b2 fm sm n ->
  gradient autograd f x gf w = (Ok g, w1) ->
  holds (heap w1) fm vfm ->
  holds (heap w1) sm vsm ->
  read (heap w1) (Arr g) = Ok vg ->
  read (heap w1) (Arr x) = Ok vx ->
  Spec.adam_firstmoment b1 vfm vg = Raise e ->
  (step autograd f x gf w).1 = Raise e /\
  self (step autograd f x gf w).2 = AdamOptimizer s b1 b2 fm sm (n + 1).
Proof.
  intros Hcls Hg Hfm Hsm Hrg Hrx He.
  destruct (step_apply_grad autograd f x gf w g w1 Hg) as [-> Hs].
  rewrite <- Hs in Hcls.
  destruct (AdamOptimizer_apply_grad_spec s b1 b2 fm sm n g x w1 vfm vsm vg vx
              Hcls Hfm Hsm Hrg Hrx) as [Ht Hspec].
  rewrite He in Hspec. destruct Hspec as (Hr & Hf & Hse). split; [done|].
  pose proof (apply_grad_keeps_class g x w1) as Hk. rewrite Hcls in Hk.
  destruct (self (apply_grad g x w1).2); cbn in *; try done.
  injection Hk as -> -> ->. by subst.
Qed.

End NotAtomic.

(** ** Which class updates [accumulation] in place *)

Section InPlace.
Context {F : Type} `{Scalar F}.
Context {objective : Type}.
Variable autograd : objective -> grad_function F.
Local Open Scope prog_scope.

Lemma apply_grad_Adagrad_in_place s a g x (h : store F) r w' :
  shape a <> [] ->
  apply_grad g x {| heap := h; self := AdagradOptimizer s (Some a) |} = (Ok r, w') ->
  self w' = AdagradOptimizer s (Some a).
Proof.
  intros Hs. unfold apply_grad, AdagradOptimizer_apply_grad.
  exec_any; try done; by intros [= <- <-].
Qed.

Lemma lookup_alloc (h : store F) l d : l < length h -> (h ++ [d]) !! l = h !! l.
Proof. intros Hl. by apply lookup_app_l. Qed.

Lemma apply_grad_rebinds g x (h : store F) o a r w' :
  accumulation o = Some a ->
  (forall s, o <> AdagradOptimizer s (Some a)) ->
  apply_grad g x {| heap := h; self := o |} = (Ok r, w') ->
  exists a', accumulation (self w') = Some a' /\ length h <= buf a' /\
             heap w' !! buf a = h !! buf a.
Proof.
  intros Ha Hn. unfold apply_grad, MomentumOptimizer_apply_grad,
    RMSPropOptimizer_apply_grad.
  destruct o as [s|s m acc|s m acc|s acc|s dc acc|s b1 b2 fm sm n];
    cbn [accumulation] in Ha; try done; subst acc;
    try (by destruct (Hn s));
    exec_any; try done; intros [= <- <-];
    (eexists; split; [reflexivity|]);
    match goal with
    | Hr : read h (Arr a) = Ok _ |- _ => apply read_live in Hr
    end;
    cbn [buf heap]; rewrite ?length_app; cbn [length];
    (split; [lia|]);
    repeat (rewrite lookup_alloc by (rewrite ?length_app; cbn [length]; lia));
    done.
Qed.

(** X8: of the classes with an [accumulation], [AdagradOptimizer] alone
    updates it in place: after a call of [step] that returned, the
    attribute is the array object it was (for an array of one dimension or
    more).  [MomentumOptimizer], [NesterovMomentumOptimizer] and
    [RMSPropOptimizer], though a subclass of [AdagradOptimizer], bind the
    attribute to a new array and leave the elements of the old one as they
    were. *)
Theorem Adagrad_alone_updates_in_place f x gf (w : world F) a g w1 r w2 :
  accumulation (self w) = Some a ->
  gradient autograd f x gf w = (Ok g, w1) ->
  step autograd f x gf w = (Ok r, w2) ->
  (forall s, self w = AdagradOptimizer s (Some a) -> shape a <> [] ->
     accumulation (self w2) = Some a) /\
  ((forall s, self w <> AdagradOptimizer s (Some a)) ->
     exists a', accumulation (self w2) = Some a' /\
                length (heap w1) <= buf a' /\
                heap w2 !! buf a = heap w1 !! buf a).
Proof.
  intros Ha Hg Hstep.
  destruct (step_apply_grad autograd f x gf w g w1 Hg) as [Hst Hs].
  rewrite Hst in Hstep. destruct w1 as [h1 o1]. cbn [self heap] in *. subst o1.
  split.
  - intros s Hcls Hsh. rewrite Hcls in Hstep.
    by rewrite (apply_grad_Adagrad_in_place _ _ _ _ _ _ _ Hsh Hstep).
  - intros Hn. by eapply apply_grad_rebinds.
Qed.

End InPlace.

(** ** Facts that need the laws of arithmetic *)

Section ForallValues.
Context {F : Type} `{Scalar F}.

Lemma Forall_chunks (P : F -> Prop) k m (d : list F) :
  Forall P d -> Forall (Forall P) (chunks k m d).
Proof.
  revert d. induction m as [|m IH]; intros d Hd; cbn [chunks]; constructor.
  - by apply Forall_take.
  - by apply IH, Forall_drop.
Qed.

Lemma Forall_broadcast_to (P : F -> Prop) from to (d : list F) :
  Forall P d -> Forall P (broadcast_to from to d).
Proof.
  revert from d. induction to as [|n to IH]; intros from d Hd; [done|].
  cbn [broadcast_to]. destruct (length from <? length (n :: to)).
  - apply Forall_join, Forall_replicate. by apply IH.
  - destruct from as [|m from]; [done|]. destruct (m =? n).
    + apply Forall_join, Forall_fmap.
      eapply Forall_impl; [by apply Forall_chunks|]. intros c Hc. by apply IH.
    + apply Forall_join, Forall_replicate. by apply IH.
Qed.

Lemma Forall_zip_with_both (P Q R : F -> Prop) op (l k : list F) :
  (forall a b, P a -> Q b -> R (op a b)) ->
  Forall P l -> Forall Q k -> Forall R (zip_with op l k).
Proof.
  intros Hop Hl. revert k. induction Hl as [|a l Ha Hl IH]; intros k Hk; [done|].
  destruct Hk as [|b k Hb Hk]; [done|]. cbn [zip_with]. constructor; auto.
Qed.

Lemma vbinop_Forall (P Q R : F -> Prop) op (a b v : value F) :
  (forall c d, P c -> Q d -> R (op c d)) ->
  Forall P (vdata a) -> Forall Q (vdata b) ->
  vbinop op a b = Ok v -> Forall R (vdata v).
Proof.
  intros Hop Ha Hb. unfold vbinop. destruct (broadcast_shape _ _); [|done].
  intros [= <-]. cbn [vdata].
  apply (Forall_zip_with_both P Q R); [done|by apply Forall_broadcast_to..].
Qed.

Lemma vbinop_square_Forall (R : F -> Prop) op (a v : value F) :
  (forall c, R (op c c)) -> vbinop op a a = Ok v -> Forall R (vdata v).
Proof.
  intros Hop. unfold vbinop. destruct (broadcast_shape _ _); [|done].
  intros [= <-]. cbn [vdata]. rewrite zip_with_diag. apply Forall_fmap.
  by apply Forall_true.
Qed.

Lemma vbinop_scalar_r_ok op (a : value F) c : exists v, vbinop op a (scalar c) = Ok v.
Proof.
  unfold vbinop. cbn [scalar vshape]. rewrite broadcast_shape_nil_r. by eexists.
Qed.

End ForallValues.

Section MomentumZero.
Context {objective : Type}.
Variable autograd : objective -> grad_function R.
Local Open Scope R_scope.

Lemma zip_with_zero_l (l k : list R) :
  length l = length k -> zip_with Rplus (Rmult 0 <$> l) k = k.
Proof.
  revert k. induction l as [|a l IH]; intros [|b k] Hl; try done.
  cbn [fmap list_fmap zip_with]. injection Hl as Hl.
  rewrite (IH k Hl). f_equal. lra.
Qed.

Lemma momentum_zero_accumulation s (vacc : option (value R)) (vg : value R) :
  wf_value vg ->
  (forall va, vacc = Some va -> wf_value va /\ vshape va = vshape vg) ->
  Spec.momentum_accumulation s 0 vacc vg = vmul (scalar s) vg.
Proof.
  intros Hg Hacc. destruct vacc as [va|]; [|done].
  destruct (Hacc va eq_refl) as [Ha Hs].
  unfold Spec.momentum_accumulation, vmul, vadd, mbind, result_bind, rbind.
  rewrite !vbinop_scalar_l by done.
  rewrite vbinop_same_shape.
  - unfold vmap. cbn [vshape vdata]. rewrite Hs. do 2 f_equal.
    apply zip_with_zero_l. rewrite length_fmap.
    unfold wf_value in *. by rewrite Ha, Hg, Hs.
  - unfold wf_value, vmap in *. cbn [vshape vdata]. by rewrite length_fmap.
  - unfold wf_value, vmap in *. cbn [vshape vdata]. by rewrite length_fmap.
  - done.
Qed.

(** X12: with [momentum = 0] a [MomentumOptimizer] is a
    [GradientDescentOptimizer]: on every call, also when [accumulation] is
    set, [step] returns [x - stepsize * g] (over the real numbers, the
    accumulation having the shape of the gradient). *)
Theorem Momentum_zero_is_gradient_descent f x gf (w : world R)
    s acc vacc g w1 vg vx :
  self w = MomentumOptimizer s 0 acc ->
  gradient autograd f x gf w = (Ok g, w1) ->
  holds (heap w1) acc vacc ->
  read (heap w1) (Arr g) = Ok vg ->
  read (heap w1) (Arr x) = Ok vx ->
  wf_value vg ->
  (forall va, vacc = Some va -> wf_value va /\ vshape va = vshape vg) ->
  final_value (step autograd f x gf w) = Spec.gd_update s vx vg.
Proof.
  intros Hcls Hg Hacc Hrg Hrx Hwf Hsh.
  destruct (step_apply_grad autograd f x gf w g w1 Hg) as [-> Hs].
  rewrite <- Hs in Hcls.
  pose proof (MomentumOptimizer_apply_grad_spec s 0 acc g x w1 vacc vg vx
                (or_introl Hcls) Hacc Hrg Hrx) as Hspec.
  rewrite momentum_zero_accumulation in Hspec by done.
  unfold Spec.gd_update, mbind, result_bind, rbind.
  destruct (vmul (scalar s) vg) as [v|e] eqn:Ev; [by destruct Hspec|].
  unfold vmul in Ev. by rewrite vbinop_scalar_l in Ev.
Qed.

End MomentumZero.

Section Divisor.
Context {objective : Type}.
Variable autograd : objective -> grad_function R.
Local Open Scope R_scope.

Lemma square_nonneg (vg v : value R) :
  vmul vg vg = Ok v -> Forall (fun r => 0 <= r) (vdata v).
Proof. apply vbinop_square_Forall. intros c. cbn. nra. Qed.

Lemma adagrad_accumulation_nonneg (vacc : option (value R)) vg v :
  (forall va, vacc = Some va -> Forall (fun r => 0 <= r) (vdata va)) ->
  Spec.adagrad_accumulation vacc vg = Ok v ->
  Forall (fun r => 0 <= r) (vdata v).
Proof.
  intros Hacc. unfold Spec.adagrad_accumulation, mbind, result_bind, rbind.
  destruct (vmul vg vg) as [gg|] eqn:Egg; [|done].
  apply square_nonneg in Egg. destruct vacc as [va|].
  - intros Hv%viadd_vadd. revert Hv.
    apply (vbinop_Forall (fun r => 0 <= r) (fun r => 0 <= r)); [|by apply Hacc|done].
    intros c d Hc Hd. cbn. lra.
  - by intros [= <-].
Qed.

Lemma rmsprop_accumulation_nonneg dc (vacc : option (value R)) vg v :
  0 <= dc <= 1 ->
  (forall va, vacc = Some va -> Forall (fun r => 0 <= r) (vdata va)) ->
  Spec.rmsprop_accumulation dc vacc vg = Ok v ->
  Forall (fun r => 0 <= r) (vdata v).
Proof.
  intros Hdc Hacc. unfold Spec.rmsprop_accumulation, mbind, result_bind, rbind.
  assert (Hmul : forall c (a b : value R),
             0 <= c -> Forall (fun r => 0 <= r) (vdata a) ->
             vmul (scalar c) a = Ok b -> Forall (fun r => 0 <= r) (vdata b)).
  { intros c a b Hc Ha.
    apply (vbinop_Forall (fun r => 0 <= r) (fun r => 0 <= r)); [|by constructor|done].
    intros p q Hp Hq. cbn. nra. }
  assert (H1 : 0 <= fsub one dc) by (rewrite one_R; cbn; lra).
  destruct vacc as [va|].
  - destruct (vmul (scalar dc) va) as [m|] eqn:Em; [|done].
    apply Hmul in Em; [|lra|by apply Hacc].
    destruct (vmul vg vg) as [gg|] eqn:Egg; [|done]. apply square_nonneg in Egg.
    destruct (vmul (scalar (fsub one dc)) gg) as [n|] eqn:En; [|done].
    apply Hmul in En; [|done..].
    apply (vbinop_Forall (fun r => 0 <= r) (fun r => 0 <= r)); [|done..].
    intros c d Hc Hd. cbn. lra.
  - destruct (vmul vg vg) as [gg|] eqn:Egg; [|done]. apply square_nonneg in Egg.
    by apply Hmul.
Qed.

Lemma calls_keep_class (w : world R) gs w' :
  calls autograd w gs w' -> just_constructed (self w') = just_constructed (self w).
Proof.
  induction 1 as [w|w gs w1 f x gf g w2 vg vx r w3 Hc IH Hg Hrg Hrx Hown Hstep
                   |w gs w1 w2 Hc IH Hself Hown]; [done| |congruence].
  pose proof (step_keeps_class autograd f x gf w1) as Hk.
  rewrite Hstep in Hk. cbn [snd] in Hk. congruence.
Qed.

Lemma RMSProp_step_spec f x gf (w : world R) s dc acc vacc g w1 vg vx r w3 :
  self w = RMSPropOptimizer s dc acc ->
  gradient autograd f x gf w = (Ok g, w1) ->
  holds (heap w1) acc vacc ->
  read (heap w1) (Arr g) = Ok vg ->
  read (heap w1) (Arr x) = Ok vx ->
  step autograd f x gf w = (Ok r, w3) ->
  exists a v, Spec.rmsprop_accumulation dc vacc vg = Ok v /\
              self w3 = RMSPropOptimizer s dc (Some a) /\
              read (heap w3) (Arr a) = Ok v.
Proof.
  intros Hcls Hg Hacc Hrg Hrx Hstep.
  destruct (step_apply_grad autograd f x gf w g w1 Hg) as [Hst Hs].
  rewrite Hst in Hstep. rewrite <- Hs in Hcls.
  pose proof (RMSPropOptimizer_apply_grad_spec s dc acc g x w1 vacc vg vx
                Hcls Hacc Hrg Hrx) as Hspec.
  rewrite Hstep in Hspec. cbn [fst snd] in Hspec.
  destruct (Spec.rmsprop_accumulation dc vacc vg) as [v|e]; [|by destruct Hspec].
  destruct Hspec as [(a & Ha & Hra) _]. exists a, v.
  split; [done|]. split; [|done]. by rewrite Ha, Hcls.
Qed.

Lemma Adagrad_step_returned f x gf (w : world R) s acc vacc g w1 vg vx r w3 :
  self w = AdagradOptimizer s acc ->
  gradient autograd f x gf w = (Ok g, w1) ->
  holds (heap w1) acc vacc ->
  read (heap w1) (Arr g) = Ok vg ->
  read (heap w1) (Arr x) = Ok vx ->
  (forall a, acc = Some a -> buf a <> buf g /\ buf a <> buf x) ->
  step autograd f x gf w = (Ok r, w3) ->
  exists a v, Spec.adagrad_accumulation vacc vg = Ok v /\
              self w3 = AdagradOptimizer s (Some a) /\
              read (heap w3) (Arr a) = Ok v.
Proof.
  intros Hcls Hg Hacc Hrg Hrx Hown Hstep.
  pose proof (Adagrad_step_spec autograd f x gf w s acc vacc g w1 vg vx
                Hcls Hg Hacc Hrg Hrx Hown) as Hspec.
  rewrite Hstep in Hspec. cbn [fst snd] in Hspec.
  destruct (Spec.adagrad_accumulation vacc vg) as [v|e]; [|by destruct Hspec].
  destruct Hspec as [(a & Ha & Hra) _]. by exists a, v.
Qed.

(** The accumulation of the adaptive classes has no negative element. *)
Lemma adaptive_accumulation_nonneg s (w : world R) gs w' :
  (self w = AdagradOptimizer_init s \/
   exists dc, self w = RMSPropOptimizer_init s dc /\ 0 <= dc <= 1) ->
  calls autograd w gs w' ->
  forall a, accumulation (self w') = Some a ->
    exists v, read (heap w') (Arr a) = Ok v /\ Forall (fun r => 0 <= r) (vdata v).
Proof.
  intros Hinit Hcalls.
  induction Hcalls as
    [w|w gs w1 f x gf g w2 vg vx r w3 Hc IH Hg Hrg Hrx Hown Hstep
      |w gs w1 w2 Hc IH Hself Hown]; intros a Ha.
  - by destruct Hinit as [Hi|(dc & Hi & _)]; rewrite Hi in Ha.
  - specialize (IH Hinit). pose proof (calls_keep_class _ _ _ Hc) as Hk.
    assert (Hold : exists vacc, holds (heap w2) (accumulation (self w1)) vacc /\
               forall va, vacc = Some va -> Forall (fun r => 0 <= r) (vdata va)).
    { destruct (accumulation (self w1)) as [a1|] eqn:E1.
      - destruct (IH a1 eq_refl) as (v1 & Hr1 & Hn1). exists (Some v1). split.
        + cbn [holds]. eapply read_same_buffer; [|done]. by apply (Hown a1).
        + by intros va [= <-].
      - exists None. by split. }
    destruct Hold as (vacc & Hh & Hn).
    destruct Hinit as [Hi|(dc & Hi & Hdc)]; rewrite Hi in Hk.
    + destruct (self w1) as [| | |s1 acc1| |] eqn:E1; try done.
      cbn in Hk. injection Hk as ->. cbn [accumulation] in *.
      destruct (Adagrad_step_returned f x gf w1 s acc1 vacc g w2 vg vx r w3
                  E1 Hg Hh Hrg Hrx) as (a' & v & Hv & Hs3 & Hr3); [|done|].
      { intros a1 ->. by destruct (Hown a1 eq_refl) as (_ & ? & ?). }
      rewrite Hs3 in Ha. injection Ha as <-. exists v.
      split; [done|]. by eapply adagrad_accumulation_nonneg.
    + destruct (self w1) as [| | | |s1 dc1 acc1|] eqn:E1; try done.
      cbn in Hk. injection Hk as -> ->. cbn [accumulation] in *.
      destruct (RMSProp_step_spec f x gf w1 s dc acc1 vacc g w2 vg vx r w3
                  E1 Hg Hh Hrg Hrx Hstep) as (a' & v & Hv & Hs3 & Hr3).
      rewrite Hs3 in Ha. injection Ha as <-. exists v.
      split; [done|]. by eapply rmsprop_accumulation_nonneg.
  - rewrite Hself in Ha. destruct (IH Hinit a Ha) as (v & Hr & Hn).
    exists v. split; [|done]. eapply read_same_buffer; [|done]. by apply Hown.
Qed.

Lemma sqrt_eps_le r : 0 <= r -> / 10000 <= sqrt (r + eps).
Proof.
  intros Hr. rewrite <- sqrt_eps. apply sqrt_le_1_alt. lra.
Qed.

(** X13: [AdagradOptimizer] and [RMSPropOptimizer] (with [decay] between
    0 and 1) never divide by zero nor take the square root of a negative
    number: after any calls of [step] that returned, no element of
    [accumulation] is negative, and every element of the divisor
    [sqrt(accumulation + 1e-8)] is at least [1e-4]. *)
Theorem adaptive_divisor_is_positive s (w : world R) gs w' a :
  (self w = AdagradOptimizer_init s \/
   exists dc, self w = RMSPropOptimizer_init s dc /\ 0 <= dc <= 1) ->
  calls autograd w gs w' ->
  accumulation (self w') = Some a ->
  exists v d,
    read (heap w') (Arr a) = Ok v /\
    Forall (fun r => 0 <= r) (vdata v) /\
    vadd v (scalar eps) = Ok d /\
    Forall (fun r => 1e-4 <= r) (vdata (vsqrt d)).
Proof.
  intros Hinit Hcalls Ha.
  destruct (adaptive_accumulation_nonneg s w gs w' Hinit Hcalls a Ha)
    as (v & Hr & Hn).
  destruct (vbinop_scalar_r_ok fadd v eps) as [d Hd].
  exists v, d. repeat split; try done.
  unfold vsqrt, vmap. cbn [vdata]. apply Forall_fmap.
  revert Hd. apply (vbinop_Forall (fun r => 0 <= r) (fun r => r = eps)).
  - intros c e Hc ->. change (1e-4 <= sqrt (c + eps)).
    pose proof (sqrt_eps_le c Hc). lra.
  - done.
  - by constructor.
Qed.

End Divisor.

(** * The theorems at work on the examples *)

Section Witnesses.
Local Open Scope R_scope.
Local Open Scope prog_scope.
Local Abbreviation autograd_R := (@Example.autograd R R_Scalar).
Local Abbreviation autograd_flat_R := (@Example.autograd_flat R R_Scalar).

(** [Example.grad_square] and the other functions of the engine only
    allocate. *)
Lemma Example_autograd_preserves l f : fn_preserves l (autograd_R f).
Proof.
  intros y h d Hd. destruct f; cbn [Example.autograd].
  - unfold Example.grad_square. destruct (read h (Arr y)); [|done].
    destruct (vmul _ _); [|done]. by apply lookup_app_l_Some.
  - unfold Example.grad_constant. destruct (read h (Arr y)); [|done].
    by apply lookup_app_l_Some.
  - done.
Qed.

(** C1 on a 2 x 2 array: a new [AdagradOptimizer] and a constant
    objective. *)
Lemma zero_gradient_leaves_x_witness :
  final_value (step autograd_R Example.Constant Example.x22 None
                 {| heap := Example.h22; self := AdagradOptimizer_init 0.1 |}) =
    Ok {| vshape := [2; 2]%nat; vdata := [1; 2; 3; 4] |} /\
  allocated [[1; 2; 3; 4]; [0; 0; 0; 0]]
    (step autograd_R Example.Constant Example.x22 None
       {| heap := Example.h22; self := AdagradOptimizer_init 0.1 |}).2 =
    [[0; 0; 0; 0];
     [1e-8; 1e-8; 1e-8; 1e-8];
     [1e-4; 1e-4; 1e-4; 1e-4];
     [0.1 / 1e-4; 0.1 / 1e-4; 0.1 / 1e-4; 0.1 / 1e-4];
     [0; 0; 0; 0];
     [1; 2; 3; 4]].
Proof.
  exact (proj1 (zero_gradient_leaves_x autograd_R)
           (AdagradOptimizer 0.1 None)
           Example.Constant Example.x22 None
           {| heap := Example.h22; self := AdagradOptimizer_init 0.1 |}
           {| buf := 1; shape := [2; 2]%nat |}
           {| heap := [[1; 2; 3; 4]; [0; 0; 0; 0]];
              self := AdagradOptimizer_init 0.1 |}
           {| vshape := [2; 2]%nat; vdata := [1; 2; 3; 4] |}
           eq_refl ltac:(run_example) ltac:(run_example) ltac:(run_example)
           eq_refl).
Defined.

(** C2 on an [AdamOptimizer] that has made seven steps. *)
Lemma reset_then_step_witness :
  reset {| heap := [[1]; [3]; [5]];
           self := AdamOptimizer 0.01 0.9 0.99
                     (Some {| buf := 1; shape := [] |})
                     (Some {| buf := 2; shape := [] |}) 7 |} =
    (Ok tt, {| heap := [[1]; [3]; [5]]; self := AdamOptimizer_init 0.01 0.9 0.99 |}) /\
  (reset;; step autograd_R Example.Square Example.x0 None)
    {| heap := [[1]; [3]; [5]];
       self := AdamOptimizer 0.01 0.9 0.99
                 (Some {| buf := 1; shape := [] |})
                 (Some {| buf := 2; shape := [] |}) 7 |} =
    step autograd_R Example.Square Example.x0 None
      {| heap := [[1]; [3]; [5]]; self := AdamOptimizer_init 0.01 0.9 0.99 |}.
Proof.
  destruct (reset_then_step autograd_R
              (AdamOptimizer 0.01 0.9 0.99
                 (Some {| buf := 1; shape := [] |})
                 (Some {| buf := 2; shape := [] |}) 7)
              [[1]; [3]; [5]] Example.Square Example.x0 None I) as (H1 & H2 & _).
  exact (conj H1 H2).
Defined.

(** C3: the first step of Adam on [f(x) = x^2] from [x = 1.0]. *)
Lemma Adam_step_witness :
  t (self (step autograd_R Example.Square Example.x0 None
             {| heap := Example.h0; self := AdamOptimizer_init 0.01 0.9 0.99 |}).2) = 1%Z /\
  final_value (step autograd_R Example.Square Example.x0 None
                 {| heap := Example.h0; self := AdamOptimizer_init 0.01 0.9 0.99 |}) =
    Spec.adam_update (0.01 * sqrt (1 - powerRZ 0.99 1) / (1 - powerRZ 0.9 1))
      (scalar (2 * 1)) (scalar (2 * 1 * (2 * 1))) (scalar 1).
Proof.
  destruct (Adam_step autograd_R Example.Square Example.x0 None
              {| heap := Example.h0; self := AdamOptimizer_init 0.01 0.9 0.99 |}
              0.01 0.9 0.99 None None 0 None None
              {| buf := 1; shape := [] |}
              {| heap := [[1]; [2 * 1]]; self := AdamOptimizer_init 0.01 0.9 0.99 |}
              (scalar (2 * 1)) (scalar 1)
              ltac:(run_example) ltac:(run_example) I I ltac:(run_example) ltac:(run_example)) as (Ht & Hv & _).
  split; [exact Ht|]. exact (proj2 Hv).
Defined.

(** C4: the second call of a [NesterovMomentumOptimizer]. *)
Lemma Nesterov_gradient_point_witness :
  exists shifted_x w',
    read (heap w') (Arr shifted_x) = Ok (scalar (1 - 0.9 * 0.2)) /\
    self w' = NesterovMomentumOptimizer 0.1 0.9 (Some {| buf := 1; shape := [] |}) /\
    (forall l d, [[1]; [0.2]] !! l = Some d -> heap w' !! l = Some d) /\
    compute_grad autograd_R Example.Square Example.x0 None
      {| heap := [[1]; [0.2]];
         self := NesterovMomentumOptimizer 0.1 0.9 (Some {| buf := 1; shape := [] |}) |} =
      call (the_grad autograd_R Example.Square None shifted_x) w'.
Proof.
  exact (proj1 (proj2 (Nesterov_gradient_point autograd_R Example.Square
                         Example.x0 None
                         {| heap := [[1]; [0.2]];
                            self := NesterovMomentumOptimizer 0.1 0.9
                                      (Some {| buf := 1; shape := [] |}) |}
                         0.1 0.9 (Some {| buf := 1; shape := [] |}) eq_refl))
           {| buf := 1; shape := [] |} (scalar 0.2) (scalar 1)
           ltac:(run_example) ltac:(run_example) ltac:(run_example)).
Defined.

(** C5: the second call of a [MomentumOptimizer]. *)
Lemma Momentum_step_witness :
  (exists a,
     self (step autograd_R Example.Square Example.x0 None
             {| heap := [[1]; [0.2]];
                self := MomentumOptimizer 0.1 0.9 (Some {| buf := 1; shape := [] |}) |}).2 =
       MomentumOptimizer 0.1 0.9 (Some a) /\
     read (heap (step autograd_R Example.Square Example.x0 None
                   {| heap := [[1]; [0.2]];
                      self := MomentumOptimizer 0.1 0.9
                                (Some {| buf := 1; shape := [] |}) |}).2) (Arr a) =
       Ok (scalar (0.9 * 0.2 + 0.1 * (2 * 1)))) /\
  final_value (step autograd_R Example.Square Example.x0 None
                 {| heap := [[1]; [0.2]];
                    self := MomentumOptimizer 0.1 0.9
                              (Some {| buf := 1; shape := [] |}) |}) =
    vsub (scalar 1) (scalar (0.9 * 0.2 + 0.1 * (2 * 1))).
Proof.
  exact (proj1 (Momentum_step autograd_R Example.Square Example.x0 None
                  {| heap := [[1]; [0.2]];
                     self := MomentumOptimizer 0.1 0.9
                               (Some {| buf := 1; shape := [] |}) |}
                  0.1 0.9 (Some {| buf := 1; shape := [] |}) (Some (scalar 0.2))
                  {| buf := 2; shape := [] |}
                  {| heap := [[1]; [0.2]; [2 * 1]];
                     self := MomentumOptimizer 0.1 0.9
                               (Some {| buf := 1; shape := [] |}) |}
                  (scalar (2 * 1)) (scalar 1)
                  ltac:(run_example) ltac:(run_example) ltac:(run_example) ltac:(run_example) ltac:(run_example))).
Defined.

(** C7: the first call of an [RMSPropOptimizer] on a 2 x 2 array. *)
Lemma RMSProp_step_witness :
  exists v,
    Spec.rmsprop_accumulation 0.9 None
      {| vshape := [2; 2]%nat; vdata := [2 * 1; 2 * 2; 2 * 3; 2 * 4] |} = Ok v /\
    (exists a,
       self (step autograd_R Example.Square Example.x22 None
               {| heap := Example.h22; self := RMSPropOptimizer_init 0.1 0.9 |}).2 =
         RMSPropOptimizer 0.1 0.9 (Some a) /\
       read (heap (step autograd_R Example.Square Example.x22 None
                     {| heap := Example.h22;
                        self := RMSPropOptimizer_init 0.1 0.9 |}).2) (Arr a) = Ok v) /\
    final_value (step autograd_R Example.Square Example.x22 None
                   {| heap := Example.h22; self := RMSPropOptimizer_init 0.1 0.9 |}) =
      Spec.adaptive_update 0.1 v
        {| vshape := [2; 2]%nat; vdata := [1; 2; 3; 4] |}
        {| vshape := [2; 2]%nat; vdata := [2 * 1; 2 * 2; 2 * 3; 2 * 4] |}.
Proof.
  eexists. split; [run_example|].
  exact (RMSProp_step autograd_R Example.Square Example.x22 None
           {| heap := Example.h22; self := RMSPropOptimizer_init 0.1 0.9 |}
           0.1 0.9 None None
           {| buf := 1; shape := [2; 2]%nat |}
           {| heap := [[1; 2; 3; 4]; [2 * 1; 2 * 2; 2 * 3; 2 * 4]];
              self := RMSPropOptimizer_init 0.1 0.9 |}
           {| vshape := [2; 2]%nat; vdata := [2 * 1; 2 * 2; 2 * 3; 2 * 4] |}
           {| vshape := [2; 2]%nat; vdata := [1; 2; 3; 4] |}
           ltac:(run_example) ltac:(run_example) I ltac:(run_example) ltac:(run_example)).
Defined.

(** Two Adagrad steps on [f(x) = x^2] from [x = 1.0], the second at the
    point the first returned. *)
Lemma Example_two_calls :
  exists w',
    calls autograd_R
      {| heap := Example.h0; self := AdagradOptimizer_init 0.1 |}
      [scalar (2 * 1);
       scalar (2 * (1 - 0.1 / sqrt (2 * 1 * (2 * 1) + eps) * (2 * 1)))]
      w'.
Proof.
  eexists.
  eapply (calls_step _ _ [scalar (2 * 1)] _ Example.Square
            {| buf := 7; shape := [] |} None).
  - eapply (calls_step _ _ [] _ Example.Square Example.x0 None).
    + apply calls_none.
    + run_example.
    + run_example.
    + run_example.
    + intros a [=].
    + run_example.
  - run_example.
  - run_example.
  - run_example.
  - intros a [= <-]. by repeat split.
  - run_example.
Qed.

(** C6 after these two calls. *)
Lemma Adagrad_accumulates_squares_witness :
  exists w' a v,
    calls autograd_R
      {| heap := Example.h0; self := AdagradOptimizer_init 0.1 |}
      [scalar (2 * 1);
       scalar (2 * (1 - 0.1 / sqrt (2 * 1 * (2 * 1) + eps) * (2 * 1)))]
      w' /\
    self w' = AdagradOptimizer 0.1 (Some a) /\
    read (heap w') (Arr a) = Ok v /\
    (gg ← vmul (scalar (2 * 1)) (scalar (2 * 1));
     Spec.sum_squares gg
       [scalar (2 * (1 - 0.1 / sqrt (2 * 1 * (2 * 1) + eps) * (2 * 1)))]) = Ok v.
Proof.
  destruct Example_two_calls as [w' Hc]. exists w'.
  destruct (proj1 Adagrad_accumulates_squares _ autograd_R 0.1
              {| heap := Example.h0; self := AdagradOptimizer_init 0.1 |} _ w'
              eq_refl Hc)
    as (a & v & H1 & H2 & H3).
  exists a, v. exact (conj Hc (conj H1 (conj H2 H3))).
Defined.

(** C8: the engine returns the gradient of a 2 x 2 array flattened, and
    [step] gives it the shape of [x]. *)
Lemma step_reshapes_gradient_witness :
  compute_grad autograd_flat_R Example.Square Example.x22 None
    {| heap := Example.h22; self := GradientDescentOptimizer_init 0.1 |} =
    (Ok {| buf := 1; shape := [4]%nat |},
     {| heap := [[1; 2; 3; 4]; [2 * 1; 2 * 2; 2 * 3; 2 * 4]];
        self := GradientDescentOptimizer_init 0.1 |}) /\
  step autograd_flat_R Example.Square Example.x22 None
    {| heap := Example.h22; self := GradientDescentOptimizer_init 0.1 |} =
    apply_grad {| buf := 1; shape := [2; 2]%nat |} Example.x22
      {| heap := [[1; 2; 3; 4]; [2 * 1; 2 * 2; 2 * 3; 2 * 4]];
         self := GradientDescentOptimizer_init 0.1 |} /\
  final_value
    (step autograd_flat_R Example.Square Example.x22 None
       {| heap := Example.h22; self := GradientDescentOptimizer_init 0.1 |}) =
    Spec.gd_update 0.1
      {| vshape := [2; 2]%nat; vdata := [1; 2; 3; 4] |}
      {| vshape := [2; 2]%nat; vdata := [2 * 1; 2 * 2; 2 * 3; 2 * 4] |}.
Proof.
  split; [run_example|].
  destruct (step_reshapes_gradient autograd_flat_R Example.Square
              Example.x22 None
              {| heap := Example.h22; self := GradientDescentOptimizer_init 0.1 |}
              {| buf := 1; shape := [4]%nat |}
              {| heap := [[1; 2; 3; 4]; [2 * 1; 2 * 2; 2 * 3; 2 * 4]];
                 self := GradientDescentOptimizer_init 0.1 |}
              ltac:(run_example)) as (H1 & _ & H3).
  split.
  - exact (proj1 (H1 (le_n 2))).
  - exact (proj1 (H3 0.1 {| buf := 1; shape := [2; 2]%nat |} _
                    {| vshape := [2; 2]%nat; vdata := [2 * 1; 2 * 2; 2 * 3; 2 * 4] |}
                    {| vshape := [2; 2]%nat; vdata := [1; 2; 3; 4] |}
                    ltac:(run_example) ltac:(run_example) ltac:(run_example) ltac:(run_example))).
Defined.

(** C9: the objective is not differentiable, the optimizer has made
    steps. *)
Lemma failed_gradient_keeps_state_witness :
  compute_grad autograd_R Example.Kink Example.x0 None
    {| heap := [[1]; [4]];
       self := AdagradOptimizer 0.1 (Some {| buf := 1; shape := [] |}) |} =
    (Raise (UserError 0),
     {| heap := [[1]; [4]];
        self := AdagradOptimizer 0.1 (Some {| buf := 1; shape := [] |}) |}) /\
  step autograd_R Example.Kink Example.x0 None
    {| heap := [[1]; [4]];
       self := AdagradOptimizer 0.1 (Some {| buf := 1; shape := [] |}) |} =
    (Raise (UserError 0),
     {| heap := [[1]; [4]];
        self := AdagradOptimizer 0.1 (Some {| buf := 1; shape := [] |}) |}).
Proof.
  split; [run_example|].
  exact (proj1 (failed_gradient_keeps_state autograd_R Example.Kink
                  Example.x0 None
                  {| heap := [[1]; [4]];
                     self := AdagradOptimizer 0.1 (Some {| buf := 1; shape := [] |}) |}
                  (UserError 0) _ ltac:(run_example))).
Defined.

(** C10: an [AdagradOptimizer] whose [accumulation] is written in place. *)
Lemma step_never_mutates_x_witness :
  heap (step autograd_R Example.Square Example.x22 None
          {| heap := [[1; 2; 3; 4]; [4; 16; 36; 64]];
             self := AdagradOptimizer 0.1
                       (Some {| buf := 1; shape := [2; 2]%nat |}) |}).2 !! 0%nat =
    Some [1; 2; 3; 4] /\
  (forall r,
     (step autograd_R Example.Square Example.x22 None
        {| heap := [[1; 2; 3; 4]; [4; 16; 36; 64]];
           self := AdagradOptimizer 0.1
                     (Some {| buf := 1; shape := [2; 2]%nat |}) |}).1 = Ok r ->
     buf r <> 0%nat).
Proof.
  destruct (step_never_mutates_x autograd_R Example.Square Example.x22 None
              {| heap := [[1; 2; 3; 4]; [4; 16; 36; 64]];
                 self := AdagradOptimizer 0.1
                           (Some {| buf := 1; shape := [2; 2]%nat |}) |}
              [1; 2; 3; 4] ltac:(run_example)
              (Example_autograd_preserves 0 Example.Square)
              ltac:(by intros a [= <-])) as (H1 & H2 & _).
  exact (conj H1 H2).
Defined.

End Witnesses.

(** * The further properties at work on the examples *)

Section MoreWitnesses.
Local Open Scope R_scope.
Local Open Scope prog_scope.
Local Abbreviation autograd_R := (@Example.autograd R R_Scalar).
Local Abbreviation grad_of_three_R := (@grad_of_three R R_Scalar).
Local Abbreviation autograd_b64 := (@Example.autograd float binary64_Scalar).
Local Abbreviation grad_of_three_b64 := (@grad_of_three float binary64_Scalar).

(** X5 in binary64: of four calls of [step] on [f(x) = sum(x * x)] the
    second raises in [apply_grad] (its gradient has three elements, the
    moments two) and the third raises before it (the objective is not
    differentiable): [t] is 3.  After a [reset] and one more call it
    is 1. *)
Lemma Adam_t_counts_the_updates_witness :
  t (self (session autograd_b64
             [CallStep Example.Square {| buf := 0; shape := [2]%nat |} None;
              CallStep Example.Square {| buf := 0; shape := [2]%nat |}
                (Some grad_of_three_b64);
              CallStep Example.Kink {| buf := 0; shape := [2]%nat |} None;
              CallStep Example.Square {| buf := 0; shape := [2]%nat |} None]
             {| heap := [[1; 2]%float];
                self := AdamOptimizer_init 0.01%float 0.9%float 0.99%float |})) =
    3%Z /\
  t (self (session autograd_b64
             [CallStep Example.Square {| buf := 0; shape := [2]%nat |} None;
              CallStep Example.Square {| buf := 0; shape := [2]%nat |} None;
              CallReset;
              CallStep Example.Square {| buf := 0; shape := [2]%nat |} None]
             {| heap := [[1; 2]%float];
                self := AdamOptimizer_init 0.01%float 0.9%float 0.99%float |})) =
    1%Z.
Proof.
  split.
  - exact (eq_trans
             (Adam_t_counts_the_updates autograd_b64 _
                {| heap := [[1; 2]%float];
                   self := AdamOptimizer_init 0.01%float 0.9%float 0.99%float |}
                0.01%float 0.9%float 0.99%float None None 0%Z eq_refl)
             ltac:(vm_compute; reflexivity)).
  - exact (eq_trans
             (Adam_t_counts_the_updates autograd_b64 _
                {| heap := [[1; 2]%float];
                   self := AdamOptimizer_init 0.01%float 0.9%float 0.99%float |}
                0.01%float 0.9%float 0.99%float None None 0%Z eq_refl)
             ltac:(vm_compute; reflexivity)).
Defined.

(** X6: the caller's function returns three elements for an [x] of
    two. *)
Lemma Momentum_raises_after_the_update_witness :
  (step autograd_R Example.Square {| buf := 0; shape := [2]%nat |}
     (Some grad_of_three_R)
     {| heap := [[1; 2]]; self := MomentumOptimizer_init 0.1 0.9 |}).1 =
    Raise ValueError /\
  exists a,
    self (step autograd_R Example.Square {| buf := 0; shape := [2]%nat |}
            (Some grad_of_three_R)
            {| heap := [[1; 2]]; self := MomentumOptimizer_init 0.1 0.9 |}).2 =
      MomentumOptimizer 0.1 0.9 (Some a) /\
    read (heap (step autograd_R Example.Square {| buf := 0; shape := [2]%nat |}
                  (Some grad_of_three_R)
                  {| heap := [[1; 2]];
                     self := MomentumOptimizer_init 0.1 0.9 |}).2) (Arr a) =
      Ok {| vshape := [3]%nat; vdata := [0.1 * 1; 0.1 * 1; 0.1 * 1] |}.
Proof.
  exact (Momentum_raises_after_the_update autograd_R Example.Square
           {| buf := 0; shape := [2]%nat |} (Some grad_of_three_R)
           {| heap := [[1; 2]]; self := MomentumOptimizer_init 0.1 0.9 |}
           0.1 0.9 None None
           {| buf := 1; shape := [3]%nat |}
           {| heap := [[1; 2]; [1; 1; 1]]; self := MomentumOptimizer_init 0.1 0.9 |}
           {| vshape := [3]%nat; vdata := [1; 1; 1] |}
           {| vshape := [2]%nat; vdata := [1; 2] |}
           {| vshape := [3]%nat; vdata := [0.1 * 1; 0.1 * 1; 0.1 * 1] |}
           ValueError
           eq_refl ltac:(run_example) I ltac:(run_example) ltac:(run_example)
           ltac:(run_example) ltac:(run_example)).
Defined.

(** X7: an [AdamOptimizer] with moments of two elements meets a gradient
    of three. *)
Lemma Adam_raises_after_the_increment_witness :
  (step autograd_R Example.Square {| buf := 0; shape := [2]%nat |}
     (Some grad_of_three_R)
     {| heap := [[1; 2]; [2; 4]; [4; 16]];
        self := AdamOptimizer 0.01 0.9 0.99
                  (Some {| buf := 1; shape := [2]%nat |})
                  (Some {| buf := 2; shape := [2]%nat |}) 1 |}).1 =
    Raise ValueError /\
  self (step autograd_R Example.Square {| buf := 0; shape := [2]%nat |}
          (Some grad_of_three_R)
          {| heap := [[1; 2]; [2; 4]; [4; 16]];
             self := AdamOptimizer 0.01 0.9 0.99
                       (Some {| buf := 1; shape := [2]%nat |})
                       (Some {| buf := 2; shape := [2]%nat |}) 1 |}).2 =
    AdamOptimizer 0.01 0.9 0.99
      (Some {| buf := 1; shape := [2]%nat |})
      (Some {| buf := 2; shape := [2]%nat |}) (1 + 1).
Proof.
  exact (Adam_raises_after_the_increment autograd_R Example.Square
           {| buf := 0; shape := [2]%nat |} (Some grad_of_three_R)
           {| heap := [[1; 2]; [2; 4]; [4; 16]];
              self := AdamOptimizer 0.01 0.9 0.99
                        (Some {| buf := 1; shape := [2]%nat |})
                        (Some {| buf := 2; shape := [2]%nat |}) 1 |}
           0.01 0.9 0.99
           (Some {| buf := 1; shape := [2]%nat |})
           (Some {| buf := 2; shape := [2]%nat |}) 1%Z
           (Some {| vshape := [2]%nat; vdata := [2; 4] |})
           (Some {| vshape := [2]%nat; vdata := [4; 16] |})
           {| buf := 3; shape := [3]%nat |}
           {| heap := [[1; 2]; [2; 4]; [4; 16]; [1; 1; 1]];
              self := AdamOptimizer 0.01 0.9 0.99
                        (Some {| buf := 1; shape := [2]%nat |})
                        (Some {| buf := 2; shape := [2]%nat |}) 1 |}
           {| vshape := [3]%nat; vdata := [1; 1; 1] |}
           {| vshape := [2]%nat; vdata := [1; 2] |}
           ValueError
           eq_refl ltac:(run_example) ltac:(run_example) ltac:(run_example)
           ltac:(run_example) ltac:(run_example) ltac:(run_example)).
Defined.

(** X8: an [AdagradOptimizer] whose [accumulation] is a 2 x 2 array. *)
Lemma Adagrad_alone_updates_in_place_witness :
  exists r w2,
    step autograd_R Example.Square Example.x22 None
      {| heap := [[1; 2; 3; 4]; [4; 16; 36; 64]];
         self := AdagradOptimizer 0.1
                   (Some {| buf := 1; shape := [2; 2]%nat |}) |} = (Ok r, w2) /\
    accumulation (self w2) = Some {| buf := 1; shape := [2; 2]%nat |}.
Proof.
  eexists _, _. split; [run_example|].
  refine (proj1 (Adagrad_alone_updates_in_place autograd_R Example.Square
                   Example.x22 None
                   {| heap := [[1; 2; 3; 4]; [4; 16; 36; 64]];
                      self := AdagradOptimizer 0.1
                                (Some {| buf := 1; shape := [2; 2]%nat |}) |}
                   {| buf := 1; shape := [2; 2]%nat |}
                   {| buf := 2; shape := [2; 2]%nat |}
                   {| heap := [[1; 2; 3; 4]; [4; 16; 36; 64];
                               [2 * 1; 2 * 2; 2 * 3; 2 * 4]];
                      self := AdagradOptimizer 0.1
                                (Some {| buf := 1; shape := [2; 2]%nat |}) |}
                   _ _ eq_refl ltac:(run_example) ltac:(run_example))
            0.1 eq_refl _).
  discriminate.
Defined.

(** X10 on the same optimizer. *)
Lemma step_keeps_shapes_witness :
  exists r,
    (step autograd_R Example.Square Example.x22 None
       {| heap := [[1; 2; 3; 4]; [4; 16; 36; 64]];
          self := AdagradOptimizer 0.1
                    (Some {| buf := 1; shape := [2; 2]%nat |}) |}).1 = Ok r /\
    shape r = [2; 2]%nat.
Proof.
  destruct (step_keeps_shapes autograd_R Example.Square Example.x22 None
              {| heap := [[1; 2; 3; 4]; [4; 16; 36; 64]];
                 self := AdagradOptimizer 0.1
                           (Some {| buf := 1; shape := [2; 2]%nat |}) |}
              {| buf := 2; shape := [2; 2]%nat |}
              {| heap := [[1; 2; 3; 4]; [4; 16; 36; 64];
                          [2 * 1; 2 * 2; 2 * 3; 2 * 4]];
                 self := AdagradOptimizer 0.1
                           (Some {| buf := 1; shape := [2; 2]%nat |}) |}
              ltac:(run_example) eq_refl ltac:(cbn; lia) ltac:(cbn; lia)
              ltac:(split; [reflexivity|cbn; lia]) I I) as [Hshape Hreturns].
  destruct (Hreturns ltac:(discriminate)) as [r Hr].
  exists r. exact (conj Hr (proj1 (Hshape r Hr))).
Defined.

(** X12: the second call of a [MomentumOptimizer] with [momentum = 0]. *)
Lemma Momentum_zero_is_gradient_descent_witness :
  final_value (step autograd_R Example.Square Example.x0 None
                 {| heap := [[1]; [0.2]];
                    self := MomentumOptimizer 0.1 0
                              (Some {| buf := 1; shape := [] |}) |}) =
    Spec.gd_update 0.1 (scalar 1) (scalar (2 * 1)).
Proof.
  exact (Momentum_zero_is_gradient_descent autograd_R Example.Square
           Example.x0 None
           {| heap := [[1]; [0.2]];
              self := MomentumOptimizer 0.1 0 (Some {| buf := 1; shape := [] |}) |}
           0.1 (Some {| buf := 1; shape := [] |}) (Some (scalar 0.2))
           {| buf := 2; shape := [] |}
           {| heap := [[1]; [0.2]; [2 * 1]];
              self := MomentumOptimizer 0.1 0 (Some {| buf := 1; shape := [] |}) |}
           (scalar (2 * 1)) (scalar 1)
           eq_refl ltac:(run_example) ltac:(run_example) ltac:(run_example)
           ltac:(run_example) eq_refl
           ltac:(intros va [= <-]; split; reflexivity)).
Defined.

(** X13 after the two calls of [Example_two_calls]. *)
Lemma adaptive_divisor_is_positive_witness :
  exists w' a v d,
    calls autograd_R
      {| heap := Example.h0; self := AdagradOptimizer_init 0.1 |}
      [scalar (2 * 1);
       scalar (2 * (1 - 0.1 / sqrt (2 * 1 * (2 * 1) + eps) * (2 * 1)))]
      w' /\
    accumulation (self w') = Some a /\
    read (heap w') (Arr a) = Ok v /\
    Forall (fun r => 0 <= r) (vdata v) /\
    vadd v (scalar eps) = Ok d /\
    Forall (fun r => 1e-4 <= r) (vdata (vsqrt d)).
Proof.
  destruct Example_two_calls as [w' Hc].
  destruct (Adagrad_calls autograd_R 0.1
              {| heap := Example.h0; self := AdagradOptimizer_init 0.1 |}
              _ w' eq_refl Hc) as (a & v0 & Hs & _).
  assert (Ha : accumulation (self w') = Some a) by (rewrite Hs; reflexivity).
  destruct (adaptive_divisor_is_positive autograd_R 0.1
              {| heap := Example.h0; self := AdagradOptimizer_init 0.1 |}
              _ w' a (or_introl eq_refl) Hc Ha) as (v & d & H1 & H2 & H3 & H4).
  exists w', a, v, d. exact (conj Hc (conj Ha (conj H1 (conj H2 (conj H3 H4))))).
Defined.

End MoreWitnesses.
